(** * FlashcardDB: the card store and its in-memory views

    A shallow embedding of [main.py] (class [FlashcardDB]).  Python objects
    are shared by reference: every view (linked list, id index, category
    buckets, practice queue, review stack) holds the same [Node] object.  The
    embedding keeps that aliasing explicit: nodes live in a [heap] and the
    views store references into it. *)

From stdpp Require Import gmap strings list fin_maps.

Open Scope string_scope.
Open Scope list_scope.

(** ** Data model *)

(** [bson.ObjectId]: an opaque identity assigned by the store. *)
Abbreviation ObjectId := nat (only parsing).

(** A reference to a [Node] object (its address in the heap). *)
Abbreviation ref := nat (only parsing).

(** A MongoDB document without its [_id]: field name to value. *)
Abbreviation Document := (gmap string string) (only parsing).

(** The card object created by [LinkedList.add_card].  [card_id] and
    [category] are attributes the orchestrator assigns right after creation;
    until then the model holds [None] and the empty string, which no
    operation reads. *)
Record Node := mkNode {
  card_id : option ObjectId;
  question : string;
  answer : string;
  category : string
}.

Global Instance Node_eq_dec : EqDecision Node.
Proof. solve_decision. Defined.

Record Memory := mkMemory {
  heap : list Node;                          (* the Node objects, by reference *)
  linked_list : list ref;                    (* Task 1: head to tail *)
  practice_queue : list ref;                 (* Task 3: deque, left end first *)
  review_history : list ref;                 (* Task 2: ReviewHistory.stack, top last *)
  category_manager : gmap string (list ref); (* Task 5: bucket per category *)
  _node_index : gmap ObjectId ref            (* fast lookup *)
}.

Global Instance Memory_eq_dec : EqDecision Memory.
Proof. solve_decision. Defined.

Definition with_heap (h : list Node) (m : Memory) : Memory :=
  mkMemory h (linked_list m) (practice_queue m) (review_history m)
           (category_manager m) (_node_index m).

Definition with_linked_list (l : list ref) (m : Memory) : Memory :=
  mkMemory (heap m) l (practice_queue m) (review_history m)
           (category_manager m) (_node_index m).

Definition with_practice_queue (q : list ref) (m : Memory) : Memory :=
  mkMemory (heap m) (linked_list m) q (review_history m)
           (category_manager m) (_node_index m).

Definition with_review_history (s : list ref) (m : Memory) : Memory :=
  mkMemory (heap m) (linked_list m) (practice_queue m) s
           (category_manager m) (_node_index m).

Definition with_category_manager (c : gmap string (list ref)) (m : Memory) : Memory :=
  mkMemory (heap m) (linked_list m) (practice_queue m) (review_history m)
           c (_node_index m).

Definition with_node_index (i : gmap ObjectId ref) (m : Memory) : Memory :=
  mkMemory (heap m) (linked_list m) (practice_queue m) (review_history m)
           (category_manager m) i.

Definition empty_memory : Memory := mkMemory [] [] [] [] ∅ ∅.

(** Attribute assignments on a shared node. *)
Definition set_card_id (v : ObjectId) (n : Node) : Node :=
  mkNode (Some v) (question n) (answer n) (category n).
Definition set_question (v : string) (n : Node) : Node :=
  mkNode (card_id n) v (answer n) (category n).
Definition set_answer (v : string) (n : Node) : Node :=
  mkNode (card_id n) (question n) v (category n).
Definition set_category (v : string) (n : Node) : Node :=
  mkNode (card_id n) (question n) (answer n) v.

(** [node.attr = v]: the write goes to the one shared object. *)
Definition assign (f : Node → Node) (node : ref) (m : Memory) : Memory :=
  with_heap (alter f node (heap m)) m.

(** [node.category] read through a reference. *)
Definition category_of (m : Memory) (node : ref) : string :=
  from_option category "" (heap m !! node).

(** Python truthiness of an [Optional[str]]: [None] and the empty string are
    falsy. *)
Definition truthy (s : option string) : bool :=
  match s with
  | Some v => bool_decide (v ≠ "")
  | None => false
  end.

(** [seq.remove(x)] of a Python list or deque: drops the first occurrence
    (the callers guard it with [x in seq]). *)
Fixpoint remove_first (x : ref) (l : list ref) : list ref :=
  match l with
  | [] => []
  | y :: l' => if decide (x = y) then l' else y :: remove_first x l'
  end.

(** Number of entries of a sequence that reference [x]. *)
Definition occurrences (x : ref) (l : list ref) : nat :=
  length (filter (λ y, y = x) l).

(** ** The views whose classes live in other modules of the repository *)

Module LinkedList.

(** Modelled from the spec: [LinkedList.add_card(question, answer)] of
    [linkedlist.py], which is not part of the sources.  Spec 4.1, [append]:
    the new card goes to the tail; the node is created here and returned. *)
Definition add_card (q a : string) (m : Memory) : ref * Memory :=
  let node := length (heap m) in
  (node, with_linked_list (linked_list m ++ [node])
           (with_heap (heap m ++ [mkNode None q a ""]) m)).

(** Modelled from the spec: the test [node.card_id == oid] that the list's
    search by id (4.1, [findById]) applies to an entry. *)
Definition has_id (m : Memory) (oid : ObjectId) (node : ref) : Prop :=
  card_id <$> heap m !! node = Some (Some oid).

Global Instance has_id_dec m oid node : Decision (has_id m oid node).
Proof. unfold has_id. apply _. Defined.

(** Modelled from the spec: [findById] (4.1), as position and reference of
    the first entry that carries [oid]. *)
Definition locate (oid : ObjectId) (m : Memory) : option (nat * ref) :=
  list_find (has_id m oid) (linked_list m).

(** Modelled from the spec: [LinkedList.edit_card(oid, new_q, new_a)].
    Spec 4.1, [update(id, question, answer)]: mutates in place, fails if
    absent. *)
Definition edit_card (oid : ObjectId) (new_q new_a : string) (m : Memory)
  : bool * Memory :=
  match locate oid m with
  | Some (_, node) =>
      (true, assign (set_answer new_a) node (assign (set_question new_q) node m))
  | None => (false, m)
  end.

(** Modelled from the spec: [LinkedList.delete_card(oid)].  Spec 4.1,
    [remove(id)]: deletes the entry, fails if absent. *)
Definition delete_card (oid : ObjectId) (m : Memory) : bool * Memory :=
  match locate oid m with
  | Some (i, _) => (true, with_linked_list (delete i (linked_list m)) m)
  | None => (false, m)
  end.

(** Modelled from the spec: [LinkedList.traverse()].  Spec 4.1: the cards
    in insertion order. *)
Definition traverse (m : Memory) : list Node :=
  omap (λ node, heap m !! node) (linked_list m).

End LinkedList.

Module ReviewHistory.

(** Modelled from the spec: [ReviewHistory.push(node)] of
    [review_history.py], which is not part of the sources; [main.py] shows
    that the [stack] attribute is a Python list.  Spec 4.5: records the
    card at the top. *)
Definition push (node : ref) (stack : list ref) : list ref := stack ++ [node].

(** Modelled from the spec: [ReviewHistory.pop()].  Spec 4.5: removes and
    returns the most recently pushed card, or the empty result. *)
Definition pop (stack : list ref) : option ref * list ref :=
  match last stack with
  | Some node => (Some node, removelast stack)
  | None => (None, stack)
  end.

(** Modelled from the spec: [ReviewHistory.size()].  Spec 4.5: the current
    depth. *)
Definition size (stack : list ref) : nat := length stack.

End ReviewHistory.

Module CategoryManager.

(** Modelled from the spec: [CategoryManager.get_by_category(category)] of
    [category_manager.py], which is not part of the sources.  Spec 4.3: the
    bucket's members in insertion order, the empty sequence if unknown. *)
Definition get_by_category (cat : string) (cm : gmap string (list ref)) : list ref :=
  default [] (cm !! cat).

(** Modelled from the spec: [CategoryManager.add_to_category(category,
    node)].  Spec 4.3, [addTo]: inserts into the named bucket, creating it
    if absent. *)
Definition add_to_category (cat : string) (node : ref)
    (cm : gmap string (list ref)) : gmap string (list ref) :=
  <[cat := get_by_category cat cm ++ [node]]> cm.

(** Modelled from the spec: [CategoryManager.remove_from_category(category,
    node)].  Spec 4.3, [removeFrom]: deletes the entry and prunes a bucket
    that becomes empty (8: "old bucket removed if empty"). *)
Definition remove_from_category (cat : string) (node : ref)
    (cm : gmap string (list ref)) : gmap string (list ref) :=
  match cm !! cat with
  | Some bucket =>
      match remove_first node bucket with
      | [] => delete cat cm
      | rest => <[cat := rest]> cm
      end
  | None => cm
  end.

(** Modelled from the spec: [CategoryManager.update_category(old, new,
    node)].  Spec 4.3, [moveCategory]: [removeFrom] followed by [addTo]. *)
Definition update_category (old_cat new_cat : string) (node : ref)
    (cm : gmap string (list ref)) : gmap string (list ref) :=
  add_to_category new_cat node (remove_from_category old_cat node cm).

(** Modelled from the spec: [CategoryManager.list_categories()].  Spec 4.3:
    the names of the non-empty buckets. *)
Definition list_categories (cm : gmap string (list ref)) : list string :=
  (map_to_list cm).*1.

End CategoryManager.

(** ** The persistent store *)

(** A request sent to the MongoDB collection. *)
Inductive StoreRequest :=
| Find
| InsertOne (doc : Document)
| UpdateOne (oid : ObjectId) (update_fields : Document)
| DeleteOne (oid : ObjectId).

(** The part of [pymongo]'s collection interface that [FlashcardDB] uses.
    The store is an external collaborator, so the orchestrator is embedded
    over any implementation of it:
    - [find c]: the documents, each with its [_id];
    - [insert_one doc c]: [result.inserted_id] and the new collection;
    - [update_one oid fields c]: for the filter [{"_id": oid}] and the update
      [{"$set": fields}], [modified_count] and the new collection;
    - [delete_one oid c]: for the filter [{"_id": oid}], [deleted_count] and
      the new collection. *)
Class Collection (C : Type) := {
  find : C → list (ObjectId * Document);
  insert_one : Document → C → ObjectId * C;
  update_one : ObjectId → Document → C → nat * C;
  delete_one : ObjectId → C → nat * C
}.

(** A reference collection: documents in insertion order, ids handed out by
    a counter, [$set] overriding the named fields, counts as MongoDB reports
    them (an update that changes nothing modifies no document). *)
Record Mongo := mkMongo {
  docs : list (ObjectId * Document);
  next_id : ObjectId
}.

Definition mongo_locate (oid : ObjectId) (c : Mongo) : option (nat * (ObjectId * Document)) :=
  list_find (λ d, d.1 = oid) (docs c).

Definition mongo_insert_one (doc : Document) (c : Mongo) : ObjectId * Mongo :=
  (next_id c, mkMongo (docs c ++ [(next_id c, doc)]) (S (next_id c))).

Definition mongo_update_one (oid : ObjectId) (fields : Document) (c : Mongo)
  : nat * Mongo :=
  match mongo_locate oid c with
  | Some (i, (_, doc)) =>
      let doc' := fields ∪ doc in
      (if decide (doc' = doc) then 0 else 1,
       mkMongo (<[i := (oid, doc')]> (docs c)) (next_id c))
  | None => (0, c)
  end.

Definition mongo_delete_one (oid : ObjectId) (c : Mongo) : nat * Mongo :=
  match mongo_locate oid c with
  | Some (i, _) => (1, mkMongo (delete i (docs c)) (next_id c))
  | None => (0, c)
  end.

Global Instance Mongo_collection : Collection Mongo := {
  find := docs;
  insert_one := mongo_insert_one;
  update_one := mongo_update_one;
  delete_one := mongo_delete_one
}.

(** ** The orchestrator *)

(** [_ensure_oid] returns an [ObjectId] as it is and parses a string into
    one; the model takes ids in that canonical form. *)
Definition _ensure_oid (card_id : ObjectId) : ObjectId := card_id.

(** [edit_card], the [update_fields] dict: [category] is added only when
    [new_cat] is truthy. *)
Definition edit_update_fields (new_q new_a : string) (new_cat : option string)
  : Document :=
  let update_fields : Document := {[ "question" := new_q; "answer" := new_a ]} in
  match new_cat with
  | Some cat =>
      if truthy new_cat then <["category" := cat]> update_fields else update_fields
  | None => update_fields
  end.

(** [edit_card], the block under [if oid in self._node_index]: the fields of
    the indexed node are overwritten and, for a truthy [new_cat], the node
    moves to the new bucket. *)
Definition edit_indexed (oid : ObjectId) (new_q new_a : string)
    (new_cat : option string) (m : Memory) : Memory :=
  match _node_index m !! oid with
  | Some node =>
      let m := assign (set_question new_q) node m in
      let m := assign (set_answer new_a) node m in
      match new_cat with
      | Some cat =>
          if truthy new_cat then
            let old_cat := category_of m node in
            let m := assign (set_category cat) node m in
            with_category_manager
              (CategoryManager.update_category old_cat cat node
                 (category_manager m)) m
          else m
      | None => m
      end
  | None => m
  end.

(** [delete_card], from [self._node_index.pop(oid, None)] on: the node
    leaves the index, then one [remove] on the queue and one on the stack,
    each guarded by a membership test, then the bucket of its category.  A
    node object is truthy, and [in] and [remove] compare nodes by identity,
    which is equality of references here. *)
Definition delete_indexed (oid : ObjectId) (m : Memory) : Memory :=
  match _node_index m !! oid with
  | Some node =>
      let m := with_node_index (delete oid (_node_index m)) m in
      let m := if bool_decide (node ∈ practice_queue m)
               then with_practice_queue (remove_first node (practice_queue m)) m
               else m in
      let m := if bool_decide (node ∈ review_history m)
               then with_review_history (remove_first node (review_history m)) m
               else m in
      with_category_manager
        (CategoryManager.remove_from_category (category_of m node) node
           (category_manager m)) m
  | None => m
  end.

(** The state of a [FlashcardDB] object.  [store_calls] is a ghost journal:
    every request sent to the collection, in order, each with the in-memory
    structures as they stood when the request was issued. *)
Record FlashcardDB (C : Type) := mkFlashcardDB {
  collection : C;
  mem : Memory;
  store_calls : list (StoreRequest * Memory)
}.
Arguments mkFlashcardDB {C}.
Arguments collection {C}.
Arguments mem {C}.
Arguments store_calls {C}.

Section Orchestrator.

Context {C : Type} `{Collection C}.

(** Body of the loop of [_load_cards_into_memory] for one document.
    [card_data["question"]] and [card_data["answer"]] raise [KeyError] when
    the field is missing ([None] here); [category] has a default. *)
Definition load_card (card_data : ObjectId * Document) (m : Memory)
  : option Memory :=
  q ← card_data.2 !! "question";
  a ← card_data.2 !! "answer";
  let '(node, m) := LinkedList.add_card q a m in
  let m := assign (set_card_id card_data.1) node m in
  let m := assign (set_category (default "Uncategorized" (card_data.2 !! "category"))) node m in
  let m := with_node_index (<[card_data.1 := node]> (_node_index m)) m in
  let m := with_practice_queue (practice_queue m ++ [node]) m in
  let m := with_category_manager
             (CategoryManager.add_to_category (category_of m node) node
                (category_manager m)) m in
  Some m.

Definition load_cards (cards : list (ObjectId * Document)) (m : Memory)
  : option Memory :=
  foldl (λ acc card_data, acc ≫= load_card card_data) (Some m) cards.

Definition _load_cards_into_memory (self : FlashcardDB C)
  : option (FlashcardDB C) :=
  let cards := find (collection self) in
  let calls := store_calls self ++ [(Find, mem self)] in
  m ← load_cards cards (mem self);
  Some (mkFlashcardDB (collection self) m calls).

(** [FlashcardDB.__init__] on an opened collection. *)
Definition init (c : C) : option (FlashcardDB C) :=
  _load_cards_into_memory (mkFlashcardDB c empty_memory []).

Definition add_card (question answer category : string) (self : FlashcardDB C)
  : ref * FlashcardDB C :=
  let doc : Document :=
    {[ "question" := question; "answer" := answer; "category" := category ]} in
  let calls := store_calls self ++ [(InsertOne doc, mem self)] in
  let '(inserted_id, c) := insert_one doc (collection self) in
  let '(node, m) := LinkedList.add_card question answer (mem self) in
  let m := assign (set_card_id inserted_id) node m in
  let m := assign (set_category category) node m in
  let m := with_node_index (<[inserted_id := node]> (_node_index m)) m in
  let m := with_practice_queue (practice_queue m ++ [node]) m in
  let m := with_category_manager
             (CategoryManager.add_to_category category node (category_manager m)) m in
  (node, mkFlashcardDB c m calls).

Definition edit_card (card_id : ObjectId) (new_q new_a : string)
    (new_cat : option string) (self : FlashcardDB C) : bool * FlashcardDB C :=
  let oid := _ensure_oid card_id in
  let '(ok_list, m) := LinkedList.edit_card oid new_q new_a (mem self) in
  let update_fields := edit_update_fields new_q new_a new_cat in
  let calls := store_calls self ++ [(UpdateOne oid update_fields, m)] in
  let '(modified_count, c) := update_one oid update_fields (collection self) in
  let ok_db := bool_decide (0 < modified_count) in
  let m := edit_indexed oid new_q new_a new_cat m in
  (ok_list && ok_db, mkFlashcardDB c m calls).

Definition delete_card (card_id : ObjectId) (self : FlashcardDB C)
  : bool * FlashcardDB C :=
  let oid := _ensure_oid card_id in
  let '(ok_list, m) := LinkedList.delete_card oid (mem self) in
  let calls := store_calls self ++ [(DeleteOne oid, m)] in
  let '(deleted_count, c) := delete_one oid (collection self) in
  let ok_db := bool_decide (0 < deleted_count) in
  let m := delete_indexed oid m in
  (ok_list && ok_db, mkFlashcardDB c m calls).

Definition next_card (self : FlashcardDB C) : option ref * FlashcardDB C :=
  match practice_queue (mem self) with
  | node :: rest =>
      (Some node,
       mkFlashcardDB (collection self) (with_practice_queue rest (mem self))
                     (store_calls self))
  | [] => (None, self)
  end.

Definition mark_reviewed (card_id : ObjectId) (correct : bool)
    (self : FlashcardDB C) : bool * FlashcardDB C :=
  let oid := _ensure_oid card_id in
  match _node_index (mem self) !! oid with
  | None => (false, self)
  | Some node =>
      let m := with_review_history
                 (ReviewHistory.push node (review_history (mem self))) (mem self) in
      let m := if negb correct
               then with_practice_queue (practice_queue m ++ [node]) m
               else m in
      (true, mkFlashcardDB (collection self) m (store_calls self))
  end.

Definition revisit_last (self : FlashcardDB C) : option ref * FlashcardDB C :=
  let '(node, stack) := ReviewHistory.pop (review_history (mem self)) in
  (node, mkFlashcardDB (collection self) (with_review_history stack (mem self))
                       (store_calls self)).

Definition get_by_category (category : string) (self : FlashcardDB C) : list ref :=
  CategoryManager.get_by_category category (category_manager (mem self)).

Definition list_categories (self : FlashcardDB C) : list string :=
  CategoryManager.list_categories (category_manager (mem self)).

Definition queue_size (self : FlashcardDB C) : nat :=
  length (practice_queue (mem self)).

Definition review_stack_size (self : FlashcardDB C) : nat :=
  ReviewHistory.size (review_history (mem self)).

End Orchestrator.

(** ** Call sequences *)

Section Sequences.

Context {C : Type}.

(** [n] successive calls of [next_card], with their results in order. *)
Fixpoint next_cards (n : nat) (self : FlashcardDB C)
  : list (option ref) * FlashcardDB C :=
  match n with
  | 0 => ([], self)
  | S n' =>
      let '(card, s) := next_card self in
      let '(cards, s') := next_cards n' s in
      (card :: cards, s')
  end.

(** [n] successive calls of [revisit_last], with their results in order. *)
Fixpoint revisits (n : nat) (self : FlashcardDB C)
  : list (option ref) * FlashcardDB C :=
  match n with
  | 0 => ([], self)
  | S n' =>
      let '(card, s) := revisit_last self in
      let '(cards, s') := revisits n' s in
      (card :: cards, s')
  end.

(** [mark_reviewed] called for each [(card_id, correct)] in turn. *)
Fixpoint mark_all (reviews : list (ObjectId * bool)) (self : FlashcardDB C)
  : list bool * FlashcardDB C :=
  match reviews with
  | [] => ([], self)
  | (card_id, correct) :: rest =>
      let '(ok, s) := mark_reviewed card_id correct self in
      let '(oks, s') := mark_all rest s in
      (ok :: oks, s')
  end.

End Sequences.

(** ** Properties the specification talks about *)

(** A reference points to a node that exists. *)
Definition allocated (m : Memory) (node : ref) : Prop := node < length (heap m).

(** Every reference held by a view points to an existing node: what holds of
    any memory built by the operations, where a node is created before any
    view gets to hold it. *)
Record well_formed (m : Memory) : Prop := mkWellFormed {
  wf_linked_list : Forall (allocated m) (linked_list m);
  wf_practice_queue : Forall (allocated m) (practice_queue m);
  wf_review_history : Forall (allocated m) (review_history m);
  wf_category_manager :
    map_Forall (λ _ bucket, Forall (allocated m) bucket) (category_manager m);
  wf_node_index : map_Forall (λ _ node, allocated m node) (_node_index m)
}.

(** The store requests issued between two states of the orchestrator. *)
Definition calls_during {C : Type} (before after : FlashcardDB C)
  : list (StoreRequest * Memory) :=
  drop (length (store_calls before)) (store_calls after).


(** The in-memory half of [add] in the words of the specification (4.6):
    construct the card, append it to the ordered list, insert it into the
    card index, insert it into the category index, enqueue it into the
    practice queue. *)
Definition memory_half_of_add (oid : ObjectId) (question answer category : string)
    (m : Memory) : Memory :=
  let '(node, m) := LinkedList.add_card question answer m in
  let m := assign (set_category category) node (assign (set_card_id oid) node m) in
  let m := with_node_index (<[oid := node]> (_node_index m)) m in
  let m := with_category_manager
             (CategoryManager.add_to_category category node (category_manager m)) m in
  with_practice_queue (practice_queue m ++ [node]) m.

(** Startup in the words of the specification (6): the in-memory half of
    [add] for every document that [findAll] returns, a missing [category]
    read as the sentinel. *)
Definition startup_views (cards : list (ObjectId * Document)) : Memory :=
  foldl (λ m card_data,
           memory_half_of_add card_data.1
             (default "" (card_data.2 !! "question"))
             (default "" (card_data.2 !! "answer"))
             (default "Uncategorized" (card_data.2 !! "category")) m)
        empty_memory cards.


(** ** Concrete states *)

(** What [init] gives on an empty collection. *)
Definition blank : FlashcardDB Mongo :=
  mkFlashcardDB (mkMongo [] 0) empty_memory [(Find, empty_memory)].

(** One card, added through [add_card]; the store names it [0]. *)
Definition one_card : FlashcardDB Mongo := (add_card "Q1" "A1" "Math" blank).2.

(** The same memory after the document was removed from the collection by
    another client of the database. *)
Definition one_card_unstored : FlashcardDB Mongo :=
  mkFlashcardDB (mkMongo [] 1) (mem one_card) (store_calls one_card).

(** The card failed two reviews in a row. *)
Definition reviewed_twice : FlashcardDB Mongo :=
  (mark_reviewed 0 false (mark_reviewed 0 false one_card).2).2.

(** Three cards A, B, C, named [0], [1], [2] by the store. *)
Definition three_cards : FlashcardDB Mongo :=
  (add_card "C" "c" "Math" (add_card "B" "b" "Art" (add_card "A" "a" "Math" blank).2).2).2.

(** A collection holding one document that has no [category] field. *)
Definition uncategorized_store : Mongo :=
  mkMongo [(7, {[ "question" := "Q7"; "answer" := "A7" ]})] 8.

(** ** Further definitions: startup, listing, reachable states *)

(** The node that the loop body of [_load_cards_into_memory] builds for a
    document: its [_id], its question and answer, its category or the
    default. *)
Definition loaded_node (card_data : ObjectId * Document) : Node :=
  mkNode (Some card_data.1)
         (default "" (card_data.2 !! "question"))
         (default "" (card_data.2 !! "answer"))
         (default "Uncategorized" (card_data.2 !! "category")).

(** A document that [_load_cards_into_memory] can read: both subscripted
    fields are there. *)
Definition readable (card_data : ObjectId * Document) : Prop :=
  is_Some (card_data.2 !! "question") ∧ is_Some (card_data.2 !! "answer").

Global Instance readable_dec card_data : Decision (readable card_data).
Proof. unfold readable. apply _. Defined.

(** The key under which the index holds a node is that node's [card_id]. *)
Definition index_consistent (m : Memory) : Prop :=
  map_Forall (λ oid node, card_id <$> heap m !! node = Some (Some oid))
             (_node_index m).

(** The line [list_all] prints for a node:
    [f"{node.card_id}: {node.question} -> {node.answer} [{node.category}]"].
    [show_id] stands for the formatting of [node.card_id] inside the
    f-string. *)
Definition card_line (show_id : option ObjectId → string) (node : Node) : string :=
  show_id (card_id node) +:+ ": " +:+ question node +:+ " -> "
  +:+ answer node +:+ " [" +:+ category node +:+ "]".

(** [list_all]: the lines it prints, one per node of the traversal, in
    order. *)
Definition list_all {C : Type} (show_id : option ObjectId → string)
    (self : FlashcardDB C) : list string :=
  card_line show_id <$> LinkedList.traverse (mem self).

(** A collection with two documents, the second without [category]. *)
Definition two_docs_store : Mongo :=
  mkMongo [(3, {[ "question" := "Q3"; "answer" := "A3"; "category" := "Math" ]});
           (5, {[ "question" := "Q5"; "answer" := "A5" ]})] 6.

(** Between two states: no request went to the store, and the cards, the
    ordered list, the index and the category buckets are the same. *)
Definition same_cards_and_store {C : Type} (s s' : FlashcardDB C) : Prop :=
  collection s' = collection s ∧ store_calls s' = store_calls s ∧
  heap (mem s') = heap (mem s) ∧ linked_list (mem s') = linked_list (mem s) ∧
  _node_index (mem s') = _node_index (mem s) ∧
  category_manager (mem s') = category_manager (mem s).

(** The states a [FlashcardDB] object goes through: construction over a
    collection, then any run of public calls. *)
Inductive reachable {C : Type} `{Collection C} (c : C) : FlashcardDB C → Prop :=
| reach_init self :
    init c = Some self → reachable c self
| reach_add_card self question answer category :
    reachable c self → reachable c (add_card question answer category self).2
| reach_edit_card self card_id new_q new_a new_cat :
    reachable c self → reachable c (edit_card card_id new_q new_a new_cat self).2
| reach_delete_card self card_id :
    reachable c self → reachable c (delete_card card_id self).2
| reach_next_card self :
    reachable c self → reachable c (next_card self).2
| reach_mark_reviewed self card_id correct :
    reachable c self → reachable c (mark_reviewed card_id correct self).2
| reach_revisit_last self :
    reachable c self → reachable c (revisit_last self).2.

(** An object whose memory is empty while the collection already holds the
    document [0]: it was constructed before another client stored it. *)
Definition behind_the_store : FlashcardDB Mongo :=
  mkFlashcardDB (collection one_card) empty_memory [(Find, empty_memory)].

(** Every card the index knows is a member of the bucket of its current
    category. *)
Definition categorized (m : Memory) : Prop :=
  map_Forall
    (λ _ node, node ∈ CategoryManager.get_by_category (category_of m node)
                        (category_manager m))
    (_node_index m).

(** * Verification *)

(** ** Facts about the shared heap *)

Section HeapFacts.

Implicit Types (m : Memory) (node r : ref) (f : Node → Node) (oid : ObjectId).

Lemma assign_lookup f node r m :
  heap (assign f node m) !! r
  = if decide (node = r) then f <$> heap m !! r else heap m !! r.
Proof.
  unfold assign. cbn. case_decide as Hr.
  - subst. apply list_lookup_alter_eq.
  - by apply list_lookup_alter_ne.
Qed.

(** What the ordered list's [edit_card] leaves alone. *)
Lemma list_edit_frame oid q a m :
  let m' := (LinkedList.edit_card oid q a m).2 in
  linked_list m' = linked_list m ∧ practice_queue m' = practice_queue m ∧
  review_history m' = review_history m ∧
  category_manager m' = category_manager m ∧ _node_index m' = _node_index m ∧
  length (heap m') = length (heap m).
Proof.
  unfold LinkedList.edit_card. destruct (LinkedList.locate oid m) as [[i r]|]; cbn.
  - by rewrite !length_alter.
  - done.
Qed.

Lemma list_edit_lookup oid q a m r :
  heap (LinkedList.edit_card oid q a m).2 !! r
  = match LinkedList.locate oid m with
    | Some (_, node) =>
        if decide (node = r) then (λ n, set_answer a (set_question q n)) <$> heap m !! r
        else heap m !! r
    | None => heap m !! r
    end.
Proof.
  unfold LinkedList.edit_card. destruct (LinkedList.locate oid m) as [[i node]|]; [|done].
  cbn [snd]. rewrite !assign_lookup. case_decide; [|done].
  by destruct (heap m !! r).
Qed.

Lemma list_edit_ok oid q a m :
  (LinkedList.edit_card oid q a m).1 = true ↔
  ∃ node, node ∈ linked_list m ∧ LinkedList.has_id m oid node.
Proof.
  unfold LinkedList.edit_card, LinkedList.locate.
  destruct (list_find _ _) as [[i node]|] eqn:Hfind; cbn.
  - apply list_find_Some in Hfind as (Hi & Hid & _).
    split; [|done]. intros _. exists node. split; [|done].
    by eapply list_elem_of_lookup_2.
  - split; [done|]. intros (node & Hin & Hid).
    apply list_find_None in Hfind. rewrite Forall_forall in Hfind. naive_solver.
Qed.

(** What the ordered list's [delete_card] leaves alone. *)
Lemma list_delete_frame oid m :
  let m' := (LinkedList.delete_card oid m).2 in
  heap m' = heap m ∧ practice_queue m' = practice_queue m ∧
  review_history m' = review_history m ∧
  category_manager m' = category_manager m ∧ _node_index m' = _node_index m.
Proof.
  unfold LinkedList.delete_card. by destruct (LinkedList.locate oid m) as [[i r]|].
Qed.

(** What the block of [edit_card] guarded by the index leaves alone. *)
Lemma edit_indexed_frame oid q a cat m :
  let m' := edit_indexed oid q a cat m in
  linked_list m' = linked_list m ∧ practice_queue m' = practice_queue m ∧
  review_history m' = review_history m ∧ _node_index m' = _node_index m ∧
  length (heap m') = length (heap m).
Proof.
  unfold edit_indexed. destruct (_node_index m !! oid) as [node|]; [|done].
  destruct cat as [cat|]; [destruct (truthy (Some cat))|]; cbn; by rewrite !length_alter.
Qed.

(** The node found through the index ends up with the new fields. *)
Lemma edit_indexed_node oid q a cat m node n :
  _node_index m !! oid = Some node → heap m !! node = Some n →
  heap (edit_indexed oid q a cat m) !! node
  = Some (mkNode (card_id n) q a
            (if truthy cat then default "" cat else category n)).
Proof.
  intros Hidx Hn. unfold edit_indexed. rewrite Hidx.
  destruct cat as [cat|]; [destruct (truthy (Some cat))|]; cbn;
    rewrite ?list_lookup_alter_eq, Hn; done.
Qed.

Lemma edit_indexed_absent oid q a cat m :
  _node_index m !! oid = None → edit_indexed oid q a cat m = m.
Proof. intros Hidx. unfold edit_indexed. by rewrite Hidx. Qed.

Lemma edit_indexed_falsy oid q a cat m :
  truthy cat = false →
  edit_indexed oid q a cat m = edit_indexed oid q a None m ∧
  category_manager (edit_indexed oid q a cat m) = category_manager m ∧
  ∀ r, category_of (edit_indexed oid q a cat m) r = category_of m r.
Proof.
  intros Hcat. unfold edit_indexed. destruct (_node_index m !! oid) as [node|]; [|done].
  destruct cat as [cat|]; [rewrite Hcat|]; (split; [done|split; [done|]]).
  all: intros r; unfold category_of; rewrite !assign_lookup;
    case_decide; [|done]; by destruct (heap m !! r).
Qed.

Lemma list_edit_category oid q a m r :
  category_of (LinkedList.edit_card oid q a m).2 r = category_of m r.
Proof.
  unfold category_of. rewrite list_edit_lookup.
  destruct (LinkedList.locate oid m) as [[i node]|]; [|done].
  case_decide; [|done]. by destruct (heap m !! r).
Qed.

End HeapFacts.

Section EditFacts.

Context {C : Type} `{Collection C}.
Implicit Types (self : FlashcardDB C) (m : Memory) (oid : ObjectId) (node : ref).

Lemma calls_during_snoc self (c : C) m call :
  calls_during self (mkFlashcardDB c m (store_calls self ++ [call])) = [call].
Proof. unfold calls_during. cbn. by rewrite drop_app_length. Qed.

Lemma add_card_unfold q a cat self :
  add_card q a cat self =
  let doc : Document := {[ "question" := q; "answer" := a; "category" := cat ]} in
  let stored := insert_one doc (collection self) in
  let node := length (heap (mem self)) in
  (node,
   mkFlashcardDB stored.2
     (mkMemory
        (alter (set_category cat) node
           (alter (set_card_id stored.1) node (heap (mem self) ++ [mkNode None q a ""])))
        (linked_list (mem self) ++ [node])
        (practice_queue (mem self) ++ [node])
        (review_history (mem self))
        (CategoryManager.add_to_category cat node (category_manager (mem self)))
        (<[stored.1 := node]> (_node_index (mem self))))
     (store_calls self ++ [(InsertOne doc, mem self)])).
Proof. unfold add_card. by destruct (insert_one _ _). Qed.

Lemma edit_card_unfold oid q a cat self :
  edit_card oid q a cat self =
  let edited := LinkedList.edit_card oid q a (mem self) in
  let fields := edit_update_fields q a cat in
  let stored := update_one oid fields (collection self) in
  (edited.1 && bool_decide (0 < stored.1),
   mkFlashcardDB stored.2 (edit_indexed oid q a cat edited.2)
     (store_calls self ++ [(UpdateOne oid fields, edited.2)])).
Proof.
  unfold edit_card, _ensure_oid.
  by destruct (LinkedList.edit_card _ _ _ _), (update_one _ _ _).
Qed.

Lemma delete_card_unfold oid self :
  delete_card oid self =
  let removed := LinkedList.delete_card oid (mem self) in
  let stored := delete_one oid (collection self) in
  (removed.1 && bool_decide (0 < stored.1),
   mkFlashcardDB stored.2 (delete_indexed oid removed.2)
     (store_calls self ++ [(DeleteOne oid, removed.2)])).
Proof.
  unfold delete_card, _ensure_oid.
  by destruct (LinkedList.delete_card _ _), (delete_one _ _).
Qed.

(** The node the index names carries the new question and answer after
    [edit_card], whatever the list and the store answered. *)
Lemma edit_card_node oid q a cat self node n :
  _node_index (mem self) !! oid = Some node → heap (mem self) !! node = Some n →
  heap (mem (edit_card oid q a cat self).2) !! node
  = Some (mkNode (card_id n) q a (if truthy cat then default "" cat else category n)).
Proof.
  intros Hidx Hn. rewrite edit_card_unfold. cbn.
  destruct (list_edit_frame oid q a (mem self)) as (_ & _ & _ & _ & Hi & _).
  pose proof (list_edit_lookup oid q a (mem self) node) as Hl. rewrite Hn in Hl.
  destruct (LinkedList.locate oid (mem self)) as [[i r]|]; [case_decide|].
  all: erewrite edit_indexed_node; [| by rewrite Hi | exact Hl]; done.
Qed.

(** C7: [edit_card] answers [True] exactly when the ordered list found and
    updated an entry for the id and the store reports a modified document;
    a [False] answer undoes nothing: the collection is the one the update
    produced and the indexed node carries the new question and answer. *)
Theorem edit_card_result oid q a cat self :
  let ok_list := (LinkedList.edit_card oid q a (mem self)).1 in
  let stored := update_one oid (edit_update_fields q a cat) (collection self) in
  let ok := (edit_card oid q a cat self).1 in
  let s' := (edit_card oid q a cat self).2 in
  (ok = true ↔ ok_list = true ∧ 0 < stored.1) ∧
  (ok = false ↔ ok_list = false ∨ stored.1 = 0) ∧
  collection s' = stored.2 ∧
  (∀ node n,
     _node_index (mem self) !! oid = Some node → heap (mem self) !! node = Some n →
     ∃ n', heap (mem s') !! node = Some n' ∧ question n' = q ∧ answer n' = a).
Proof.
  intros ok_list stored ok s'. subst ok s'.
  split; [|split; [|split]].
  - rewrite edit_card_unfold. cbn. rewrite andb_true_iff, bool_decide_eq_true. done.
  - rewrite edit_card_unfold. cbn. rewrite andb_false_iff, bool_decide_eq_false.
    subst ok_list stored. split; (intros [?|?]; [by left|right; lia]).
  - by rewrite edit_card_unfold.
  - intros node n Hidx Hn. eexists. split; [by eapply edit_card_node|done].
Qed.

(** The bucket a node is taken out of loses its first entry of the node. *)
Lemma bucket_after_remove old node (cm : gmap string (list ref)) :
  CategoryManager.get_by_category old
    (CategoryManager.remove_from_category old node cm)
  = remove_first node (CategoryManager.get_by_category old cm).
Proof.
  unfold CategoryManager.remove_from_category, CategoryManager.get_by_category.
  destruct (cm !! old) as [bucket|] eqn:Hb; cbn; [|by rewrite Hb].
  destruct (remove_first node bucket) as [|y rest].
  - by rewrite lookup_delete_eq.
  - by rewrite lookup_insert_eq.
Qed.

Lemma bucket_after_remove_other c old node (cm : gmap string (list ref)) :
  c ≠ old →
  CategoryManager.get_by_category c
    (CategoryManager.remove_from_category old node cm)
  = CategoryManager.get_by_category c cm.
Proof.
  intros Hne. unfold CategoryManager.remove_from_category, CategoryManager.get_by_category.
  destruct (cm !! old) as [bucket|]; [|done].
  destruct (remove_first node bucket); by rewrite ?lookup_delete_ne, ?lookup_insert_ne.
Qed.

(** The buckets after a move, read through [get_by_category]. *)
Lemma bucket_after_update old new node (cm : gmap string (list ref)) :
  CategoryManager.get_by_category new
    (CategoryManager.update_category old new node cm)
  = (if decide (old = new)
     then remove_first node (CategoryManager.get_by_category new cm)
     else CategoryManager.get_by_category new cm) ++ [node] ∧
  (old ≠ new →
   CategoryManager.get_by_category old
     (CategoryManager.update_category old new node cm)
   = remove_first node (CategoryManager.get_by_category old cm)).
Proof.
  unfold CategoryManager.update_category, CategoryManager.add_to_category. split.
  - unfold CategoryManager.get_by_category at 1. rewrite lookup_insert_eq. cbn.
    f_equal. case_decide as Heq.
    + subst. apply bucket_after_remove.
    + by apply bucket_after_remove_other.
  - intros Hne. unfold CategoryManager.get_by_category at 1.
    rewrite lookup_insert_ne by done. apply bucket_after_remove.
Qed.

(** For a truthy [new_cat] the indexed node moves between buckets. *)
Lemma edit_indexed_buckets oid q a c m node :
  c ≠ "" → _node_index m !! oid = Some node →
  category_manager (edit_indexed oid q a (Some c) m)
  = CategoryManager.update_category (category_of m node) c node (category_manager m).
Proof.
  intros Hc Hidx. unfold edit_indexed. rewrite Hidx.
  assert (Ht : truthy (Some c) = true) by (cbn; by apply bool_decide_eq_true).
  rewrite Ht. cbn [category_manager with_category_manager assign with_heap].
  f_equal. unfold category_of. cbn [heap assign with_heap].
  rewrite !list_lookup_alter_eq. by destruct (heap m !! node).
Qed.

(** C2, as the code has it: when the store reports no modified document
    [edit_card] answers [False] and the ordered list, the card index, the
    practice queue and the review stack hold the same references as
    before, but the card found under the id is rewritten all the same:
    new question, new answer and, for a truthy [new_cat], new category,
    and it then moves from the bucket of its old category to the end of
    the bucket of the new one.  For a falsy [new_cat] the buckets stay as
    they were.  When neither the list nor the index knows the id, memory
    stays as it was. *)
Theorem failed_store_update_still_edits oid q a cat self :
  (update_one oid (edit_update_fields q a cat) (collection self)).1 = 0 →
  let s' := (edit_card oid q a cat self).2 in
  (edit_card oid q a cat self).1 = false ∧
  linked_list (mem s') = linked_list (mem self) ∧
  _node_index (mem s') = _node_index (mem self) ∧
  practice_queue (mem s') = practice_queue (mem self) ∧
  review_history (mem s') = review_history (mem self) ∧
  (truthy cat = false → category_manager (mem s') = category_manager (mem self)) ∧
  ((LinkedList.edit_card oid q a (mem self)).1 = false →
   _node_index (mem self) !! oid = None → mem s' = mem self) ∧
  (∀ node n,
     _node_index (mem self) !! oid = Some node → heap (mem self) !! node = Some n →
     heap (mem s') !! node
     = Some (mkNode (card_id n) q a
               (if truthy cat then default "" cat else category n))) ∧
  (∀ c node n,
     cat = Some c → c ≠ "" →
     _node_index (mem self) !! oid = Some node → heap (mem self) !! node = Some n →
     get_by_category c s'
     = (if decide (category n = c)
        then remove_first node (get_by_category c self)
        else get_by_category c self) ++ [node] ∧
     (category n ≠ c →
      get_by_category (category n) s'
      = remove_first node (get_by_category (category n) self))).
Proof.
  intros Hfail s'. subst s'.
  destruct (list_edit_frame oid q a (mem self)) as (Hl & Hq & Hs & Hc & Hi & _).
  destruct (edit_indexed_frame oid q a cat (LinkedList.edit_card oid q a (mem self)).2)
    as (Hl' & Hq' & Hs' & Hi' & _).
  rewrite edit_card_unfold. cbn. rewrite Hfail.
  split; [by rewrite andb_false_r|].
  split; [congruence|]. split; [congruence|]. split; [congruence|]. split; [congruence|].
  split; [|split; [|split]].
  - intros Hcat. destruct (edit_indexed_falsy oid q a cat
      (LinkedList.edit_card oid q a (mem self)).2 Hcat) as (_ & -> & _). done.
  - intros Hno Hidx. rewrite edit_indexed_absent by congruence.
    unfold LinkedList.edit_card in *.
    by destruct (LinkedList.locate oid (mem self)) as [[i r]|].
  - intros node n Hidx Hn. pose proof (edit_card_node oid q a cat self node n Hidx Hn) as E.
    by rewrite edit_card_unfold in E.
  - intros c node n -> Hne Hidx Hn. unfold get_by_category. cbn [mem].
    rewrite (edit_indexed_buckets oid q a c _ node Hne) by (by rewrite Hi).
    rewrite list_edit_category, Hc. unfold category_of. rewrite Hn.
    cbn [from_option]. apply bucket_after_update.
Qed.

(** C10: a falsy [new_cat] (the empty string) is handled as no [new_cat]
    at all: the same result and state, no [category] key in the update
    sent to the store, the buckets and every node's category as before,
    while question and answer are still written. *)
Theorem falsy_category_is_no_category oid q a cat self :
  truthy cat = false →
  let s' := (edit_card oid q a cat self).2 in
  edit_card oid q a cat self = edit_card oid q a None self ∧
  edit_update_fields q a cat = {[ "question" := q; "answer" := a ]} ∧
  (∃ m, calls_during self s'
        = [(UpdateOne oid {[ "question" := q; "answer" := a ]}, m)]) ∧
  category_manager (mem s') = category_manager (mem self) ∧
  (∀ r, category_of (mem s') r = category_of (mem self) r) ∧
  (∀ node n,
     _node_index (mem self) !! oid = Some node → heap (mem self) !! node = Some n →
     heap (mem s') !! node = Some (mkNode (card_id n) q a (category n))).
Proof.
  intros Hcat s'. subst s'.
  assert (Hf : edit_update_fields q a cat = {[ "question" := q; "answer" := a ]}).
  { unfold edit_update_fields. destruct cat as [c|]; [by rewrite Hcat|done]. }
  destruct (list_edit_frame oid q a (mem self)) as (_ & _ & _ & Hc & _).
  destruct (edit_indexed_falsy oid q a cat (LinkedList.edit_card oid q a (mem self)).2 Hcat)
    as (He & Hcm & Hcat').
  split; [|split; [done|split; [|split; [|split]]]].
  - rewrite !edit_card_unfold. cbn. rewrite Hf, He. done.
  - rewrite edit_card_unfold. cbn. rewrite Hf, calls_during_snoc. by eexists.
  - rewrite edit_card_unfold. cbn. congruence.
  - intros r. rewrite edit_card_unfold. cbn. by rewrite Hcat', list_edit_category.
  - intros node n Hidx Hn. rewrite (edit_card_node oid q a cat self node n Hidx Hn).
    by rewrite Hcat.
Qed.

End EditFacts.

Example init_blank : init (mkMongo [] 0) = Some blank.
Proof. reflexivity. Qed.

Section OrderFacts.

Context {C : Type} `{Collection C}.
Implicit Types (self : FlashcardDB C) (m : Memory) (oid : ObjectId) (node : ref).


End OrderFacts.



(** C2 fails as stated: the document is gone from the collection, the
    update modifies nothing, and the card in memory is rewritten anyway. *)
Lemma failed_update_changes_memory :
  (update_one 0 (edit_update_fields "Q2" "A2" (Some "Science"))
     (collection one_card_unstored)).1 = 0 ∧
  (edit_card 0 "Q2" "A2" (Some "Science") one_card_unstored).1 = false ∧
  heap (mem one_card_unstored) = [mkNode (Some 0) "Q1" "A1" "Math"] ∧
  heap (mem (edit_card 0 "Q2" "A2" (Some "Science") one_card_unstored).2)
  = [mkNode (Some 0) "Q2" "A2" "Science"] ∧
  get_by_category "Math" one_card_unstored = [0] ∧
  get_by_category "Math" (edit_card 0 "Q2" "A2" (Some "Science") one_card_unstored).2 = [] ∧
  mem (edit_card 0 "Q2" "A2" (Some "Science") one_card_unstored).2 ≠ mem one_card_unstored.
Proof.
  repeat split; try (vm_compute; reflexivity).
  intros Heq. apply (f_equal heap) in Heq. vm_compute in Heq. discriminate Heq.
Qed.

Lemma failed_store_update_still_edits_witness :
  (update_one 0 (edit_update_fields "Q2" "A2" (Some "Science"))
     (collection one_card_unstored)).1 = 0 ∧
  (edit_card 0 "Q2" "A2" (Some "Science") one_card_unstored).1 = false ∧
  heap (mem (edit_card 0 "Q2" "A2" (Some "Science") one_card_unstored).2) !! 0
  = Some (mkNode (Some 0) "Q2" "A2" "Science") ∧
  get_by_category "Science"
    (edit_card 0 "Q2" "A2" (Some "Science") one_card_unstored).2 = [0] ∧
  get_by_category "Math"
    (edit_card 0 "Q2" "A2" (Some "Science") one_card_unstored).2 = [].
Proof.
  assert (Hfail : (update_one 0 (edit_update_fields "Q2" "A2" (Some "Science"))
                     (collection one_card_unstored)).1 = 0) by reflexivity.
  split; [exact Hfail|].
  destruct (failed_store_update_still_edits 0 "Q2" "A2" (Some "Science")
              one_card_unstored Hfail)
    as (Hret & _ & _ & _ & _ & _ & _ & Hnode & Hmove).
  split; [exact Hret|].
  split; [apply (Hnode 0 (mkNode (Some 0) "Q1" "A1" "Math")); reflexivity|].
  destruct (Hmove "Science" 0 (mkNode (Some 0) "Q1" "A1" "Math"))
    as [Hnew Hold]; [reflexivity|discriminate|reflexivity|reflexivity|].
  split.
  - rewrite Hnew. reflexivity.
  - etrans; [exact (Hold ltac:(discriminate))|reflexivity].
Defined.

Section SequenceFacts.

Implicit Types (l : list ref) (x y node : ref).

Lemma occurrences_cons x y l :
  occurrences x (y :: l) = (if decide (y = x) then 1 else 0) + occurrences x l.
Proof. unfold occurrences. rewrite filter_cons. by case_decide. Qed.

Lemma occurrences_app x l1 l2 :
  occurrences x (l1 ++ l2) = occurrences x l1 + occurrences x l2.
Proof. unfold occurrences. by rewrite filter_app, length_app. Qed.

Lemma occurrences_absent x l : x ∉ l → occurrences x l = 0.
Proof.
  induction l as [|y l IH]; [done|]. rewrite not_elem_of_cons. intros [Hne Hl].
  rewrite occurrences_cons, IH by done. by case_decide.
Qed.

(** One [remove] takes away one entry, not all of them. *)
Lemma occurrences_remove_first x l :
  occurrences x (remove_first x l) = pred (occurrences x l).
Proof.
  induction l as [|y l IH]; [done|]. cbn [remove_first].
  case_decide as Hxy.
  - subst. rewrite occurrences_cons. by case_decide.
  - rewrite !occurrences_cons, IH. case_decide; [congruence|done].
Qed.

Lemma remove_first_snoc x l : x ∉ l → remove_first x (l ++ [x]) = l.
Proof.
  induction l as [|y l IH]; cbn.
  - intros _. by case_decide.
  - rewrite not_elem_of_cons. intros [Hne Hl]. case_decide; [done|]. by rewrite IH.
Qed.

Lemma Forall_remove_first (P : ref → Prop) x l :
  Forall P l → Forall P (remove_first x l).
Proof.
  induction 1 as [|y l Hy Hl IH]; [done|]. cbn. case_decide; [done|by constructor].
Qed.

Lemma Forall_removelast (P : ref → Prop) l : Forall P l → Forall P (removelast l).
Proof.
  induction 1 as [|y l Hy Hl IH]; [done|]. cbn. destruct l; [done|by constructor].
Qed.

End SequenceFacts.

(** ** References stay valid *)

Section WellFormed.

Implicit Types (m : Memory) (node r : ref) (oid : ObjectId).

Lemma allocated_mono m m' r :
  (length (heap m) ≤ length (heap m'))%nat → allocated m r → allocated m' r.
Proof. unfold allocated. lia. Qed.

Lemma Forall_allocated_mono m m' (l : list ref) :
  (length (heap m) ≤ length (heap m'))%nat →
  Forall (allocated m) l → Forall (allocated m') l.
Proof.
  intros Hle Hl. eapply Forall_impl; [exact Hl|]. intros r. by apply allocated_mono.
Qed.

Lemma buckets_allocated_mono m m' (cm : gmap string (list ref)) :
  (length (heap m) ≤ length (heap m'))%nat →
  map_Forall (λ _ bucket, Forall (allocated m) bucket) cm →
  map_Forall (λ _ bucket, Forall (allocated m') bucket) cm.
Proof.
  intros Hle Hcm. eapply map_Forall_impl; [exact Hcm|].
  intros cat bucket. by apply Forall_allocated_mono.
Qed.

Lemma index_allocated_mono m m' (idx : gmap ObjectId ref) :
  (length (heap m) ≤ length (heap m'))%nat →
  map_Forall (λ _ node, allocated m node) idx →
  map_Forall (λ _ node, allocated m' node) idx.
Proof.
  intros Hle Hidx. eapply map_Forall_impl; [exact Hidx|].
  intros oid r. by apply allocated_mono.
Qed.

Lemma add_to_category_allocated m cat node (cm : gmap string (list ref)) :
  allocated m node →
  map_Forall (λ _ bucket, Forall (allocated m) bucket) cm →
  map_Forall (λ _ bucket, Forall (allocated m) bucket)
    (CategoryManager.add_to_category cat node cm).
Proof.
  intros Hnode Hcm. unfold CategoryManager.add_to_category.
  apply map_Forall_insert_2; [|done].
  apply Forall_app. split; [|by constructor].
  unfold CategoryManager.get_by_category.
  destruct (cm !! cat) as [bucket|] eqn:Hb; [|done]. by apply (Hcm cat).
Qed.

Lemma remove_from_category_allocated m cat node (cm : gmap string (list ref)) :
  map_Forall (λ _ bucket, Forall (allocated m) bucket) cm →
  map_Forall (λ _ bucket, Forall (allocated m) bucket)
    (CategoryManager.remove_from_category cat node cm).
Proof.
  intros Hcm. unfold CategoryManager.remove_from_category.
  destruct (cm !! cat) as [bucket|] eqn:Hb; [|done].
  pose proof (Forall_remove_first _ node bucket (Hcm cat bucket Hb)) as Hrest.
  destruct (remove_first node bucket) as [|y rest].
  - by apply map_Forall_delete.
  - by apply map_Forall_insert_2.
Qed.

Lemma well_formed_empty : well_formed empty_memory.
Proof.
  constructor; cbn; try done; apply map_Forall_empty.
Qed.

(** The in-memory steps shared by [add_card] and [_load_cards_into_memory]. *)
Lemma well_formed_new_card m h (oid : ObjectId) cat :
  well_formed m → length h = S (length (heap m)) →
  well_formed
    (mkMemory h (linked_list m ++ [length (heap m)])
       (practice_queue m ++ [length (heap m)]) (review_history m)
       (CategoryManager.add_to_category cat (length (heap m)) (category_manager m))
       (<[oid := length (heap m)]> (_node_index m))).
Proof.
  intros [Hl Hq Hs Hc Hi] Hlen.
  set (m' := mkMemory _ _ _ _ _ _).
  assert (Hle : (length (heap m) ≤ length (heap m'))%nat) by (cbn; lia).
  assert (Hnew : allocated m' (length (heap m))) by (unfold allocated; cbn; lia).
  constructor; cbn.
  - apply Forall_app. split; [by eapply Forall_allocated_mono|by constructor].
  - apply Forall_app. split; [by eapply Forall_allocated_mono|by constructor].
  - by eapply Forall_allocated_mono.
  - apply add_to_category_allocated; [done|]. by eapply buckets_allocated_mono.
  - apply map_Forall_insert_2; [done|]. by eapply index_allocated_mono.
Qed.

Lemma well_formed_load_card card_data m m' :
  load_card card_data m = Some m' → well_formed m → well_formed m'.
Proof.
  unfold load_card. intros Hload Hwf.
  destruct (card_data.2 !! "question") as [q|]; [|done].
  destruct (card_data.2 !! "answer") as [a|]; [|done].
  cbn in Hload. injection Hload as <-.
  refine (well_formed_new_card m _ _ _ Hwf _).
  cbn. rewrite !length_alter, length_app. cbn. lia.
Qed.

Lemma well_formed_load_cards cards m m' :
  load_cards cards m = Some m' → well_formed m → well_formed m'.
Proof.
  unfold load_cards. revert m. induction cards as [|d cards IH]; intros m Hload Hwf.
  - by injection Hload as <-.
  - cbn in Hload. destruct (load_card d m) as [m1|] eqn:Hd.
    + eapply IH; [exact Hload|]. by eapply well_formed_load_card.
    + exfalso. clear -Hload. induction cards as [|d' cards IH]; [done|]. by apply IH.
Qed.

Lemma well_formed_edit_indexed oid q a cat m :
  well_formed m → well_formed (edit_indexed oid q a cat m).
Proof.
  intros [Hl Hq Hs Hc Hi]. unfold edit_indexed.
  destruct (_node_index m !! oid) as [node|] eqn:Hidx; [|by constructor].
  pose proof (Hi oid node Hidx) as Hnode.
  destruct cat as [cat|]; [destruct (truthy (Some cat))|].
  2,3: constructor; cbn; unfold allocated in *; cbn; rewrite ?length_alter; done.
  set (m' := with_category_manager _ _).
  assert (Hle : (length (heap m) ≤ length (heap m'))%nat) by (cbn; by rewrite !length_alter).
  constructor; cbn.
  1-3: by eapply Forall_allocated_mono.
  - apply add_to_category_allocated; [by eapply allocated_mono|].
    apply remove_from_category_allocated. by eapply buckets_allocated_mono.
  - by eapply index_allocated_mono.
Qed.

Lemma well_formed_list_edit oid q a m :
  well_formed m → well_formed (LinkedList.edit_card oid q a m).2.
Proof.
  intros [Hl Hq Hs Hc Hi]. unfold LinkedList.edit_card.
  destruct (LinkedList.locate oid m) as [[i node]|]; [|by constructor].
  constructor; cbn; unfold allocated in *; cbn; rewrite ?length_alter; done.
Qed.

Lemma well_formed_list_delete oid m :
  well_formed m → well_formed (LinkedList.delete_card oid m).2.
Proof.
  intros [Hl Hq Hs Hc Hi]. unfold LinkedList.delete_card.
  destruct (LinkedList.locate oid m) as [[i node]|]; [|by constructor].
  constructor; cbn; try done. by apply Forall_delete.
Qed.

Lemma well_formed_delete_indexed oid m :
  well_formed m → well_formed (delete_indexed oid m).
Proof.
  intros [Hl Hq Hs Hc Hi]. unfold delete_indexed.
  destruct (_node_index m !! oid) as [node|] eqn:Hidx; [|by constructor].
  cbn. repeat case_bool_decide; constructor; cbn; try done.
  all: try (by apply Forall_remove_first).
  all: try (by apply map_Forall_delete).
  all: by apply remove_from_category_allocated.
Qed.

End WellFormed.

Section Reachable.

Context {C : Type} `{Collection C}.
Implicit Types (self : FlashcardDB C) (m : Memory) (oid : ObjectId) (node : ref).

Lemma well_formed_init (c : C) self : init c = Some self → well_formed (mem self).
Proof.
  unfold init, _load_cards_into_memory. cbn.
  destruct (load_cards (find c) empty_memory) as [m|] eqn:Hload; [|done].
  cbn. intros [= <-]. cbn. eapply well_formed_load_cards; [exact Hload|].
  apply well_formed_empty.
Qed.

Lemma well_formed_add_card q a cat self :
  well_formed (mem self) → well_formed (mem (add_card q a cat self).2).
Proof.
  intros Hwf. rewrite add_card_unfold. cbn [snd mem].
  apply well_formed_new_card; [done|].
  rewrite !length_alter, length_app. cbn. lia.
Qed.

Lemma well_formed_edit_card oid q a cat self :
  well_formed (mem self) → well_formed (mem (edit_card oid q a cat self).2).
Proof.
  intros Hwf. rewrite edit_card_unfold. cbn [snd mem].
  by apply well_formed_edit_indexed, well_formed_list_edit.
Qed.

Lemma well_formed_delete_card oid self :
  well_formed (mem self) → well_formed (mem (delete_card oid self).2).
Proof.
  intros Hwf. rewrite delete_card_unfold. cbn [snd mem].
  by apply well_formed_delete_indexed, well_formed_list_delete.
Qed.

Lemma well_formed_mark_reviewed oid correct self :
  well_formed (mem self) → well_formed (mem (mark_reviewed oid correct self).2).
Proof.
  intros Hwf. unfold mark_reviewed, _ensure_oid.
  destruct (_node_index (mem self) !! oid) as [node|] eqn:Hidx; [|done].
  destruct Hwf as [Hl Hq Hs Hc Hi]. pose proof (Hi oid node Hidx) as Hnode.
  destruct correct; constructor; cbn; try done.
  all: apply Forall_app; split; [done|by constructor].
Qed.

Lemma well_formed_next_card self :
  well_formed (mem self) → well_formed (mem (next_card self).2).
Proof.
  intros Hwf. unfold next_card.
  destruct (practice_queue (mem self)) as [|node rest] eqn:Hq; [done|].
  destruct Hwf as [Hl Hq' Hs Hc Hi]. rewrite Hq in Hq'.
  constructor; cbn; try done. by inversion Hq'.
Qed.

Lemma well_formed_revisit_last self :
  well_formed (mem self) → well_formed (mem (revisit_last self).2).
Proof.
  intros [Hl Hq Hs Hc Hi]. unfold revisit_last, ReviewHistory.pop.
  destruct (last (review_history (mem self))); constructor; cbn; try done.
  by apply Forall_removelast.
Qed.

(** ** Deleting a card *)

Lemma delete_indexed_forgets_id oid m : _node_index (delete_indexed oid m) !! oid = None.
Proof.
  unfold delete_indexed. destruct (_node_index m !! oid) as [node|] eqn:Hidx; [|done].
  cbn. repeat case_bool_decide; cbn; apply lookup_delete_eq.
Qed.

Lemma delete_card_forgets_id oid self :
  _node_index (mem (delete_card oid self).2) !! oid = None.
Proof. rewrite delete_card_unfold. apply delete_indexed_forgets_id. Qed.

Lemma delete_indexed_drops_one_entry oid node m :
  _node_index m !! oid = Some node →
  occurrences node (practice_queue (delete_indexed oid m))
  = pred (occurrences node (practice_queue m)) ∧
  occurrences node (review_history (delete_indexed oid m))
  = pred (occurrences node (review_history m)).
Proof.
  intros Hidx. unfold delete_indexed. rewrite Hidx.
  destruct m as [h l q s c i]. cbn -[occurrences].
  repeat case_bool_decide; cbn -[occurrences] in *; split;
    rewrite ?occurrences_remove_first; rewrite ?occurrences_absent by done; done.
Qed.

Lemma delete_indexed_bucket oid node m :
  _node_index m !! oid = Some node →
  category_manager (delete_indexed oid m)
  = CategoryManager.remove_from_category (category_of m node) node (category_manager m).
Proof.
  intros Hidx. unfold delete_indexed. rewrite Hidx.
  destruct m as [h l q s c i]. cbn. by repeat case_bool_decide.
Qed.

(** [delete_card] takes one entry of the node out of the queue and one out
    of the stack, however many there are. *)
Lemma delete_card_drops_one_entry oid node self :
  _node_index (mem self) !! oid = Some node →
  let s' := (delete_card oid self).2 in
  occurrences node (practice_queue (mem s'))
  = pred (occurrences node (practice_queue (mem self))) ∧
  occurrences node (review_history (mem s'))
  = pred (occurrences node (review_history (mem self))).
Proof.
  intros Hidx s'. subst s'. rewrite delete_card_unfold. cbn [snd mem].
  destruct (list_delete_frame oid (mem self)) as (_ & Hq & Hs & _ & Hi).
  rewrite <- Hq, <- Hs. apply delete_indexed_drops_one_entry. by rewrite Hi.
Qed.

(** C4: once [delete_card] has run for an id, the index no longer knows
    it, so [mark_reviewed] for that id answers [False] and changes
    nothing, neither the review stack nor the practice queue. *)
Theorem mark_reviewed_after_delete oid correct self :
  let s' := (delete_card oid self).2 in
  _node_index (mem s') !! oid = None ∧
  mark_reviewed oid correct s' = (false, s').
Proof.
  intros s'. pose proof (delete_card_forgets_id oid self) as Hgone.
  split; [done|]. unfold mark_reviewed, _ensure_oid. fold s' in Hgone.
  by rewrite Hgone.
Qed.

(** ** Adding, then reading the bucket *)

Lemma bucket_after_add_to_category cat node (cm : gmap string (list ref)) :
  CategoryManager.get_by_category cat (CategoryManager.add_to_category cat node cm)
  = CategoryManager.get_by_category cat cm ++ [node].
Proof.
  unfold CategoryManager.add_to_category.
  unfold CategoryManager.get_by_category at 1. by rewrite lookup_insert_eq.
Qed.

Lemma bucket_after_remove_last cat node (cm : gmap string (list ref)) :
  node ∉ CategoryManager.get_by_category cat cm →
  CategoryManager.get_by_category cat
    (CategoryManager.remove_from_category cat node
       (CategoryManager.add_to_category cat node cm))
  = CategoryManager.get_by_category cat cm.
Proof.
  intros Hfresh. unfold CategoryManager.remove_from_category, CategoryManager.add_to_category.
  rewrite lookup_insert_eq, remove_first_snoc by done.
  unfold CategoryManager.get_by_category in *.
  destruct (cm !! cat) as [[|y bucket]|] eqn:Hb; cbn.
  - by rewrite lookup_delete_eq.
  - by rewrite lookup_insert_eq.
  - by rewrite lookup_delete_eq.
Qed.

Lemma bucket_allocated m cat node :
  well_formed m → node ∈ CategoryManager.get_by_category cat (category_manager m) →
  allocated m node.
Proof.
  intros [_ _ _ Hc _]. unfold CategoryManager.get_by_category.
  destruct (category_manager m !! cat) as [bucket|] eqn:Hb; cbn.
  - intros Hin. pose proof (Hc cat bucket Hb) as Hall.
    rewrite Forall_forall in Hall. by apply Hall.
  - by intros ?%elem_of_nil.
Qed.

(** C9: in a well-formed state, the card that [add_card] returns is in the
    bucket of its category exactly once; [delete_card] for its id then
    takes it out of that bucket. *)
Theorem add_then_get_by_category q a cat self :
  well_formed (mem self) →
  let oid :=
    (insert_one {[ "question" := q; "answer" := a; "category" := cat ]}
       (collection self)).1 in
  let node := (add_card q a cat self).1 in
  let s1 := (add_card q a cat self).2 in
  heap (mem s1) !! node = Some (mkNode (Some oid) q a cat) ∧
  _node_index (mem s1) !! oid = Some node ∧
  occurrences node (get_by_category cat s1) = 1 ∧
  node ∉ get_by_category cat (delete_card oid s1).2.
Proof.
  intros Hwf oid node s1. subst node s1. rewrite add_card_unfold. cbn [fst snd].
  fold oid. set (node := length (heap (mem self))).
  assert (Hfresh : node ∉ get_by_category cat self).
  { intros Hin. apply (bucket_allocated _ _ _ Hwf) in Hin.
    unfold allocated in Hin. subst node. lia. }
  assert (Hnode : alter (set_category cat) node
                    (alter (set_card_id oid) node
                       (heap (mem self) ++ [mkNode None q a ""])) !! node
                  = Some (mkNode (Some oid) q a cat)).
  { rewrite !list_lookup_alter_eq. subst node. by rewrite list_lookup_middle. }
  split; [exact Hnode|]. split; [cbn; apply lookup_insert_eq|]. split.
  - unfold get_by_category. cbn [mem category_manager].
    rewrite bucket_after_add_to_category, occurrences_app.
    rewrite occurrences_absent by exact Hfresh.
    rewrite occurrences_cons. by case_decide.
  - rewrite delete_card_unfold. cbn [snd]. unfold get_by_category. cbn [mem].
    match goal with |- context [LinkedList.delete_card oid ?m] =>
      destruct (list_delete_frame oid m) as (Hh & _ & _ & Hc & Hi);
      set (m1 := (LinkedList.delete_card oid m).2) in *
    end.
    cbn [heap category_manager _node_index] in Hh, Hc, Hi.
    rewrite (delete_indexed_bucket oid node) by (rewrite Hi; apply lookup_insert_eq).
    unfold category_of. rewrite Hh, Hnode, Hc. cbn [from_option category].
    rewrite bucket_after_remove_last by exact Hfresh. exact Hfresh.
Qed.

End Reachable.

(** C3 fails on the code: a card that failed two reviews sits three times
    in the practice queue and twice in the review stack; [delete_card]
    answers [True], drops the id from the index, and leaves two queue
    entries and one stack entry that still reference the deleted card. *)
Theorem delete_leaves_requeued_entries :
  _node_index (mem reviewed_twice) !! 0 = Some 0 ∧
  practice_queue (mem reviewed_twice) = [0; 0; 0] ∧
  review_history (mem reviewed_twice) = [0; 0] ∧
  (delete_card 0 reviewed_twice).1 = true ∧
  _node_index (mem (delete_card 0 reviewed_twice).2) !! 0 = None ∧
  occurrences 0 (practice_queue (mem (delete_card 0 reviewed_twice).2)) = 2 ∧
  occurrences 0 (review_history (mem (delete_card 0 reviewed_twice).2)) = 1.
Proof. repeat split; vm_compute; reflexivity. Qed.

Section QueueAndStack.
Context {C : Type} `{Collection C}.
Implicit Types (self : FlashcardDB C) (m : Memory) (oid : ObjectId) (node : ref).

Lemma next_cards_drain (l rest : list ref) self :
  practice_queue (mem self) = l ++ rest →
  (next_cards (length l) self).1 = Some <$> l ∧
  practice_queue (mem (next_cards (length l) self).2) = rest.
Proof.
  revert self. induction l as [|x l IH]; intros self Hq; [done|].
  cbn [length next_cards]. unfold next_card. rewrite Hq. cbn [app].
  match goal with |- context [next_cards _ ?s] =>
    destruct (IH s) as [IH1 IH2]; [done|]; destruct (next_cards (length l) s) as [cs s']
  end.
  cbn in *. by rewrite IH1.
Qed.

(** C5: for a card the index knows, [mark_reviewed] with [correct = False]
    appends that very node at the tail of the practice queue: the next
    calls of [next_card] give the cards that were queued at the time of the
    review, in order, and the call after them gives the node again.  With
    [correct = True] the queue is left as it was. *)
Theorem failed_review_requeues_at_tail oid node self :
  _node_index (mem self) !! oid = Some node →
  let q := practice_queue (mem self) in
  let s1 := (mark_reviewed oid false self).2 in
  (mark_reviewed oid false self).1 = true ∧
  practice_queue (mem s1) = q ++ [node] ∧
  (next_cards (length q) s1).1 = Some <$> q ∧
  (next_card (next_cards (length q) s1).2).1 = Some node ∧
  (mark_reviewed oid true self).1 = true ∧
  practice_queue (mem (mark_reviewed oid true self).2) = q.
Proof.
  intros Hidx q s1. subst s1. unfold mark_reviewed, _ensure_oid. rewrite Hidx.
  cbn. split; [done|]. split; [done|].
  match goal with |- context [next_cards _ ?s] =>
    destruct (next_cards_drain q [node] s) as [D1 D2]; [done|] end.
  split; [done|]. split; [|done].
  unfold next_card. by rewrite D2.
Qed.

Lemma mark_reviewed_found oid node correct self :
  _node_index (mem self) !! oid = Some node →
  ∃ s, mark_reviewed oid correct self = (true, s) ∧
       _node_index (mem s) = _node_index (mem self) ∧
       review_history (mem s) = review_history (mem self) ++ [node].
Proof.
  intros Hidx. unfold mark_reviewed, _ensure_oid. rewrite Hidx.
  eexists; split; [done|]. by destruct correct.
Qed.

Lemma mark_all_pushes (reviews : list (ObjectId * bool)) (nodes : list ref) self :
  Forall2 (λ rv node, _node_index (mem self) !! rv.1 = Some node) reviews nodes →
  (mark_all reviews self).1 = replicate (length reviews) true ∧
  review_history (mem (mark_all reviews self).2) = review_history (mem self) ++ nodes.
Proof.
  intros Hall. revert self Hall. revert nodes.
  induction reviews as [|[oid correct] reviews IH]; intros nodes self Hall.
  - apply Forall2_nil_inv_l in Hall as ->. by rewrite app_nil_r.
  - apply Forall2_cons_inv_l in Hall as (node & nodes' & Hidx & Hall & ->).
    destruct (mark_reviewed_found oid node correct self Hidx) as (s & Hs & Hi & Hst).
    cbn [mark_all]. rewrite Hs.
    destruct (IH nodes' s) as [IH1 IH2]; [by rewrite Hi|].
    destruct (mark_all reviews s) as [oks s']. cbn in *.
    by rewrite IH1, IH2, Hst, <- app_assoc.
Qed.

Lemma pop_snoc (stack : list ref) node :
  ReviewHistory.pop (stack ++ [node]) = (Some node, stack).
Proof. unfold ReviewHistory.pop. by rewrite last_snoc, removelast_last. Qed.

Lemma revisits_unwind (nodes base : list ref) self :
  review_history (mem self) = base ++ nodes →
  (revisits (length nodes) self).1 = Some <$> reverse nodes ∧
  review_history (mem (revisits (length nodes) self).2) = base.
Proof.
  revert self. induction nodes as [|node nodes IH] using rev_ind; intros self Hst.
  - by rewrite app_nil_r in Hst.
  - rewrite length_app, Nat.add_comm. cbn [length Nat.add revisits].
    unfold revisit_last. rewrite Hst, app_assoc, pop_snoc.
    match goal with |- context [revisits _ ?s] =>
      destruct (IH s) as [IH1 IH2]; [done|]; destruct (revisits (length nodes) s) as [cs s'] end.
    cbn in *. by rewrite reverse_snoc, IH1.
Qed.

(** C6: after a run of successful [mark_reviewed] calls, as many
    [revisit_last] calls give the reviewed nodes in reverse order and leave
    the stack as it was before the reviews; if it was empty, the next
    [revisit_last] gives [None]. *)
Theorem revisit_last_reverses_reviews
    (reviews : list (ObjectId * bool)) (nodes : list ref) self :
  Forall2 (λ rv node, _node_index (mem self) !! rv.1 = Some node) reviews nodes →
  let s1 := (mark_all reviews self).2 in
  let s2 := (revisits (length nodes) s1).2 in
  (mark_all reviews self).1 = replicate (length reviews) true ∧
  (revisits (length nodes) s1).1 = Some <$> reverse nodes ∧
  review_history (mem s2) = review_history (mem self) ∧
  (review_history (mem self) = [] → (revisit_last s2).1 = None).
Proof.
  intros Hall s1 s2. destruct (mark_all_pushes reviews nodes self Hall) as [Hok Hst].
  destruct (revisits_unwind nodes (review_history (mem self)) s1 Hst) as [R1 R2].
  repeat split; try done. intros Hempty. unfold revisit_last. fold s2 in R2.
  by rewrite R2, Hempty.
Qed.
End QueueAndStack.

Section Startup.

Context {C : Type} `{Collection C}.
Implicit Types (self : FlashcardDB C) (m : Memory) (oid : ObjectId) (node : ref).

Lemma new_node_lookup (f g : Node → Node) (h : list Node) (n : Node) :
  alter f (length h) (alter g (length h) (h ++ [n])) !! length h = Some (f (g n)).
Proof. by rewrite !list_lookup_alter_eq, list_lookup_middle. Qed.

Lemma add_card_memory q a cat self :
  mem (add_card q a cat self).2
  = memory_half_of_add
      (insert_one {[ "question" := q; "answer" := a; "category" := cat ]}
         (collection self)).1 q a cat (mem self).
Proof. by rewrite add_card_unfold. Qed.

Lemma load_card_memory card_data q a m :
  card_data.2 !! "question" = Some q → card_data.2 !! "answer" = Some a →
  load_card card_data m
  = Some (memory_half_of_add card_data.1 q a
            (default "Uncategorized" (card_data.2 !! "category")) m).
Proof.
  intros Hq Ha. unfold load_card. rewrite Hq, Ha. cbn.
  unfold memory_half_of_add, category_of. cbn.
  by rewrite new_node_lookup.
Qed.

Lemma load_cards_memory cards m :
  Forall (λ card_data, is_Some (card_data.2 !! "question") ∧
                       is_Some (card_data.2 !! "answer")) cards →
  load_cards cards m
  = Some (foldl (λ m card_data,
                   memory_half_of_add card_data.1
                     (default "" (card_data.2 !! "question"))
                     (default "" (card_data.2 !! "answer"))
                     (default "Uncategorized" (card_data.2 !! "category")) m)
            m cards).
Proof.
  unfold load_cards. intros Hall. revert m.
  induction Hall as [|d cards [[q Hq] [a Ha]] _ IH]; intros m; [done|].
  cbn [foldl mbind option_bind]. rewrite (load_card_memory d q a m Hq Ha), IH.
  by rewrite Hq, Ha.
Qed.

(** C8: construction sends one [find] and nothing else to the store, and
    builds the views by replaying, for every document, the in-memory half
    of [add_card]: the same steps [add_card] itself performs after its
    insert.  A document without [category] is loaded under
    ["Uncategorized"]. *)
Theorem startup_replays_memory_half_of_add (c : C) q a cat self :
  (∀ card_data, card_data ∈ find c →
     is_Some (card_data.2 !! "question") ∧ is_Some (card_data.2 !! "answer")) →
  mem (add_card q a cat self).2
  = memory_half_of_add
      (insert_one {[ "question" := q; "answer" := a; "category" := cat ]}
         (collection self)).1 q a cat (mem self) ∧
  ∃ s, init c = Some s ∧ collection s = c ∧
       store_calls s = [(Find, empty_memory)] ∧
       mem s = startup_views (find c).
Proof.
  intros Hdocs. split; [apply add_card_memory|].
  unfold init, _load_cards_into_memory. cbn [collection mem store_calls].
  rewrite load_cards_memory by (by apply Forall_forall).
  cbn. eexists. split; [done|]. done.
Qed.

End Startup.

Lemma startup_replays_memory_half_of_add_witness :
  ∃ s, init uncategorized_store = Some s ∧
       store_calls s = [(Find, empty_memory)] ∧
       heap (mem s) = [mkNode (Some 7) "Q7" "A7" "Uncategorized"] ∧
       get_by_category "Uncategorized" s = [0] ∧
       practice_queue (mem s) = [0] ∧ _node_index (mem s) !! 7 = Some 0.
Proof.
  destruct (startup_replays_memory_half_of_add uncategorized_store "Q" "A" "Math" blank)
    as (_ & s & Hinit & _ & Hcalls & Hmem).
  - intros card_data Hin. apply list_elem_of_singleton in Hin. subst card_data.
    split; eexists; reflexivity.
  - exists s. split; [exact Hinit|]. split; [exact Hcalls|].
    unfold get_by_category. rewrite Hmem. repeat split; vm_compute; reflexivity.
Defined.

(** ** The theorems at work on concrete states *)

Lemma edit_card_result_witness :
  (edit_card 0 "Q2" "A2" None one_card).1 = true ∧
  ∃ n', heap (mem (edit_card 0 "Q2" "A2" None one_card).2) !! 0 = Some n' ∧
        question n' = "Q2" ∧ answer n' = "A2".
Proof.
  destruct (edit_card_result 0 "Q2" "A2" None one_card) as (Hok & _ & _ & Hnode).
  split.
  - apply Hok. split; [reflexivity|]. vm_compute. lia.
  - apply (Hnode 0 (mkNode (Some 0) "Q1" "A1" "Math")); reflexivity.
Defined.

Lemma falsy_category_is_no_category_witness :
  truthy (Some "") = false ∧
  edit_card 0 "Q2" "A2" (Some "") one_card = edit_card 0 "Q2" "A2" None one_card ∧
  get_by_category "Math" (edit_card 0 "Q2" "A2" (Some "") one_card).2 = [0].
Proof.
  assert (Hfalsy : truthy (Some "") = false) by reflexivity.
  destruct (falsy_category_is_no_category 0 "Q2" "A2" (Some "") one_card Hfalsy)
    as (Hsame & _ & _ & Hbuckets & _).
  split; [exact Hfalsy|]. split; [exact Hsame|].
  unfold get_by_category. rewrite Hbuckets. reflexivity.
Defined.

Lemma failed_review_requeues_at_tail_witness :
  _node_index (mem one_card) !! 0 = Some 0 ∧
  practice_queue (mem one_card) = [0] ∧
  practice_queue (mem (mark_reviewed 0 false one_card).2) = [0; 0] ∧
  (next_card (next_cards 1 (mark_reviewed 0 false one_card).2).2).1 = Some 0.
Proof.
  assert (Hidx : _node_index (mem one_card) !! 0 = Some 0) by reflexivity.
  destruct (failed_review_requeues_at_tail 0 0 one_card Hidx)
    as (_ & Htail & _ & Hagain & _).
  split; [exact Hidx|]. split; [reflexivity|]. split; [exact Htail|exact Hagain].
Defined.

Lemma revisit_last_reverses_reviews_witness :
  let reviewed := (mark_all [(0, true); (1, false); (2, true)] three_cards).2 in
  (revisits 3 reviewed).1 = [Some 2; Some 1; Some 0] ∧
  (revisit_last (revisits 3 reviewed).2).1 = None.
Proof.
  destruct (revisit_last_reverses_reviews
              [(0, true); (1, false); (2, true)] [0; 1; 2] three_cards)
    as (_ & Horder & _ & Hempty).
  - repeat constructor.
  - split; [exact Horder|]. apply Hempty. reflexivity.
Defined.

Lemma add_then_get_by_category_witness :
  well_formed (mem one_card) ∧
  occurrences 1 (get_by_category "Math" (add_card "Q2" "A2" "Math" one_card).2) = 1 ∧
  1 ∉ get_by_category "Math"
        (delete_card 1 (add_card "Q2" "A2" "Math" one_card).2).2.
Proof.
  assert (Hwf : well_formed (mem one_card)).
  { apply well_formed_add_card. constructor; cbn; try done; apply map_Forall_empty. }
  destruct (add_then_get_by_category "Q2" "A2" "Math" one_card Hwf)
    as (_ & _ & Honce & Hgone).
  split; [exact Hwf|]. split; [exact Honce|exact Hgone].
Defined.

(** * Further properties of the code *)

Section StartupFacts.

Context {C : Type} `{Collection C}.
Implicit Types (self : FlashcardDB C) (m : Memory) (oid : ObjectId) (node : ref).

Lemma new_node_heap (f g : Node → Node) (h : list Node) (n : Node) :
  alter f (length h) (alter g (length h) (h ++ [n])) = h ++ [f (g n)].
Proof.
  apply list_eq. intros i. destruct (decide (i = length h)) as [->|Hne].
  - rewrite !list_lookup_alter_eq. by rewrite !list_lookup_middle by done.
  - rewrite !list_lookup_alter_ne by done.
    destruct (decide (i < length h)) as [Hlt|Hge].
    + by rewrite !lookup_app_l.
    + rewrite !lookup_ge_None_2; [done| |]; rewrite length_app; cbn; lia.
Qed.

(** One step of startup, seen from outside. *)
Lemma memory_half_of_add_views oid q a cat m :
  let m' := memory_half_of_add oid q a cat m in
  heap m' = heap m ++ [mkNode (Some oid) q a cat] ∧
  linked_list m' = linked_list m ++ [length (heap m)] ∧
  practice_queue m' = practice_queue m ++ [length (heap m)] ∧
  review_history m' = review_history m ∧
  _node_index m' = <[oid := length (heap m)]> (_node_index m).
Proof.
  unfold memory_half_of_add. cbn. by rewrite new_node_heap.
Qed.

Lemma load_cards_fails cards :
  foldl (λ acc card_data, acc ≫= load_card card_data) None cards = None.
Proof. by induction cards. Qed.

Lemma load_card_None card_data m : load_card card_data m = None ↔ ¬ readable card_data.
Proof.
  unfold load_card, readable.
  destruct (card_data.2 !! "question") as [q|]; cbn.
  - destruct (card_data.2 !! "answer") as [a|]; cbn.
    + split; [done|]. intros Hno. destruct Hno. split; by eexists.
    + split; [|done]. intros _ [_ [? ?]]. done.
  - split; [|done]. intros _ [[? ?] _]. done.
Qed.

Lemma load_cards_None cards m :
  load_cards cards m = None ↔ Exists (λ card_data, ¬ readable card_data) cards.
Proof.
  unfold load_cards. revert m. induction cards as [|d cards IH]; intros m.
  - cbn. split; [done|]. by intros ?%Exists_nil.
  - cbn [foldl]. rewrite Exists_cons. cbn [mbind option_bind].
    destruct (load_card d m) as [m1|] eqn:Hd.
    + rewrite IH. split; [by right|]. intros [Hbad|Hex]; [|done].
      apply (load_card_None d m) in Hbad. congruence.
    + rewrite load_cards_fails. split; [|done]. intros _. left.
      by apply (load_card_None d m).
Qed.

(** What replaying the documents builds, from any memory. *)
Lemma startup_fold cards m :
  let m' := foldl (λ m card_data,
                     memory_half_of_add card_data.1
                       (default "" (card_data.2 !! "question"))
                       (default "" (card_data.2 !! "answer"))
                       (default "Uncategorized" (card_data.2 !! "category")) m)
                  m cards in
  heap m' = heap m ++ (loaded_node <$> cards) ∧
  linked_list m' = linked_list m ++ seq (length (heap m)) (length cards) ∧
  practice_queue m' = practice_queue m ++ seq (length (heap m)) (length cards) ∧
  review_history m' = review_history m ∧
  (∀ oid, oid ∉ cards.*1 → _node_index m' !! oid = _node_index m !! oid) ∧
  (NoDup cards.*1 → ∀ i card_data, cards !! i = Some card_data →
     _node_index m' !! card_data.1 = Some (length (heap m) + i)).
Proof.
  revert m. induction cards as [|d cards IH]; intros m.
  - cbn. rewrite !app_nil_r. by repeat split.
  - cbn [foldl].
    match goal with |- context [foldl ?f (memory_half_of_add ?o ?q ?a ?c m) cards] =>
      destruct (memory_half_of_add_views o q a c m) as (Hh & Hl & Hq & Hs & Hi);
      specialize (IH (memory_half_of_add o q a c m));
      set (m1 := memory_half_of_add o q a c m) in *
    end.
    cbn zeta in *. destruct IH as (IHh & IHl & IHq & IHs & IHo & IHi).
    assert (Hlen : length (heap m1) = S (length (heap m))).
    { rewrite Hh, length_app. cbn. lia. }
    rewrite IHh, IHl, IHq, IHs, Hlen, Hh, Hl, Hq, Hs.
    rewrite <- !app_assoc. cbn [fmap list_fmap length seq app].
    split; [done|]. split; [done|]. split; [done|]. split; [done|]. split.
    + intros oid [Hne Hnot]%not_elem_of_cons. rewrite IHo by done. rewrite Hi.
      by rewrite lookup_insert_ne.
    + intros [Hfresh Hnd]%NoDup_cons i card_data Hlook.
      destruct i as [|i]; cbn in Hlook.
      * injection Hlook as <-. rewrite IHo by done. rewrite Hi, lookup_insert_eq.
        f_equal. lia.
      * rewrite (IHi Hnd i card_data Hlook), Hlen. f_equal. lia.
Qed.

Lemma startup_views_shape (cards : list (ObjectId * Document)) :
  heap (startup_views cards) = loaded_node <$> cards ∧
  linked_list (startup_views cards) = seq 0 (length cards) ∧
  practice_queue (startup_views cards) = seq 0 (length cards) ∧
  review_history (startup_views cards) = [].
Proof.
  destruct (startup_fold cards empty_memory) as (Hh & Hl & Hq & Hs & _).
  split; [exact Hh|]. split; [exact Hl|]. split; [exact Hq|exact Hs].
Qed.

(** X1: construction fails (the [KeyError] of [card_data["question"]] or
    [card_data["answer"]]) exactly when the collection returns a document
    without a question or without an answer; a missing category never makes
    it fail. *)
Theorem init_fails_iff_unreadable_document (c : C) :
  init c = None ↔
  ∃ card_data, card_data ∈ find c ∧
    (card_data.2 !! "question" = None ∨ card_data.2 !! "answer" = None).
Proof.
  unfold init, _load_cards_into_memory. cbn [collection mem store_calls].
  destruct (load_cards (find c) empty_memory) as [m|] eqn:Hload; cbn.
  - split; [done|]. intros (d & Hin & Hbad). exfalso.
    assert (Hex : Exists (λ card_data, ¬ readable card_data) (find c)).
    { apply Exists_exists. exists d. split; [done|]. intros [[q Hq] [a Ha]].
      destruct Hbad; congruence. }
    apply (load_cards_None (find c) empty_memory) in Hex. congruence.
  - split; [|done]. intros _. apply load_cards_None in Hload.
    apply Exists_exists in Hload as (d & Hin & Hbad). exists d. split; [done|].
    unfold readable in Hbad.
    destruct (d.2 !! "question") as [q|]; [|by left].
    destruct (d.2 !! "answer") as [a|]; [|by right].
    destruct Hbad. split; by eexists.
Qed.

(** X2: after a successful construction over documents with pairwise
    distinct ids, the node of the [i]-th document holds that document's id,
    question, answer and category (or ["Uncategorized"]) and is the one the
    index gives for the id; ordered list and practice queue list the nodes
    in the order of the documents, the review stack is empty, the
    collection is untouched. *)
Theorem init_loads_every_document (c : C) self :
  init c = Some self → NoDup (find c).*1 →
  collection self = c ∧
  queue_size self = length (find c) ∧
  practice_queue (mem self) = linked_list (mem self) ∧
  linked_list (mem self) = seq 0 (length (find c)) ∧
  review_history (mem self) = [] ∧
  ∀ i card_data, find c !! i = Some card_data →
    _node_index (mem self) !! card_data.1 = Some i ∧
    heap (mem self) !! i = Some (loaded_node card_data).
Proof.
  intros Hinit Hnd.
  assert (Hall : Forall readable (find c)).
  { apply Forall_forall. intros d Hin.
    destruct (decide (readable d)) as [|Hbad]; [done|]. exfalso.
    assert (Hnone : init c = None); [|congruence].
    apply init_fails_iff_unreadable_document. exists d. split; [done|].
    unfold readable in Hbad.
    destruct (d.2 !! "question") as [q|]; [|by left].
    destruct (d.2 !! "answer") as [a|]; [|by right].
    destruct Hbad. split; by eexists. }
  unfold init, _load_cards_into_memory in Hinit. cbn [collection mem store_calls] in Hinit.
  rewrite load_cards_memory in Hinit by exact Hall. cbn in Hinit.
  injection Hinit as <-. cbn [collection mem]. unfold queue_size. cbn [mem].
  destruct (startup_fold (find c) empty_memory) as (Hh & Hl & Hq & Hs & _ & Hi).
  cbn in Hh, Hl, Hq, Hs, Hi.
  split; [done|]. split; [by rewrite Hq, length_seq|].
  split; [by rewrite Hq, Hl|]. split; [done|]. split; [done|].
  intros i card_data Hlook. split; [by apply Hi|].
  by rewrite Hh, list_lookup_fmap, Hlook.
Qed.

End StartupFacts.

Section AddFacts.

Context {C : Type} `{Collection C}.
Implicit Types (self : FlashcardDB C) (m : Memory) (oid : ObjectId) (node : ref).

(** What [add_card] does to each part of the state. *)
Lemma add_card_views q a cat self :
  let stored :=
    insert_one {[ "question" := q; "answer" := a; "category" := cat ]}
               (collection self) in
  let s' := (add_card q a cat self).2 in
  (add_card q a cat self).1 = length (heap (mem self)) ∧
  collection s' = stored.2 ∧
  heap (mem s') = heap (mem self) ++ [mkNode (Some stored.1) q a cat] ∧
  _node_index (mem s') = <[stored.1 := length (heap (mem self))]> (_node_index (mem self)) ∧
  review_history (mem s') = review_history (mem self) ∧
  linked_list (mem s') = linked_list (mem self) ++ [length (heap (mem self))] ∧
  practice_queue (mem s') = practice_queue (mem self) ++ [length (heap (mem self))] ∧
  category_manager (mem s')
  = CategoryManager.add_to_category cat (length (heap (mem self)))
      (category_manager (mem self)).
Proof.
  intros stored s'. subst s'. rewrite add_card_unfold. cbn [fst snd].
  fold stored. cbn [collection mem heap _node_index review_history linked_list
                    practice_queue category_manager].
  by rewrite new_node_heap.
Qed.

(** X3: [add_card] creates exactly one node, with the given question,
    answer and category and the id the store assigned; the nodes that
    existed are unchanged; the index gains the entry for that id and
    nothing else; the review stack is untouched; the node goes to the tail
    of the list and of the practice queue, so [next_card] hands it out after
    every card that was already queued. *)
Theorem add_card_creates_one_node q a cat self :
  let stored :=
    insert_one {[ "question" := q; "answer" := a; "category" := cat ]}
               (collection self) in
  let node := (add_card q a cat self).1 in
  let s' := (add_card q a cat self).2 in
  node = length (heap (mem self)) ∧
  collection s' = stored.2 ∧
  heap (mem s') = heap (mem self) ++ [mkNode (Some stored.1) q a cat] ∧
  _node_index (mem s') = <[stored.1 := node]> (_node_index (mem self)) ∧
  review_history (mem s') = review_history (mem self) ∧
  linked_list (mem s') = linked_list (mem self) ++ [node] ∧
  practice_queue (mem s') = practice_queue (mem self) ++ [node] ∧
  (next_cards (S (queue_size self)) s').1
  = (Some <$> practice_queue (mem self)) ++ [Some node].
Proof.
  intros stored node s'.
  destruct (add_card_views q a cat self) as (Hn & Hc & Hh & Hi & Hs & Hl & Hq & _).
  fold stored s' in Hc, Hh, Hi, Hs, Hl, Hq. subst node. rewrite Hn.
  repeat (split; [done|]).
  unfold queue_size.
  destruct (next_cards_drain
              (practice_queue (mem self) ++ [length (heap (mem self))]) [] s')
    as [Hdrain _]; [by rewrite app_nil_r|].
  rewrite length_app, Nat.add_1_r in Hdrain. by rewrite Hdrain, fmap_app.
Qed.

End AddFacts.

Section EditMore.

Context {C : Type} `{Collection C}.
Implicit Types (self : FlashcardDB C) (m : Memory) (oid : ObjectId) (node : ref).

Lemma edit_indexed_lookup oid q a cat m r :
  _node_index m !! oid ≠ Some r →
  heap (edit_indexed oid q a cat m) !! r = heap m !! r.
Proof.
  intros Hne. unfold edit_indexed.
  destruct (_node_index m !! oid) as [node|]; [|done].
  assert (node ≠ r) by congruence.
  destruct cat as [cat|]; [destruct (truthy (Some cat))|]; cbn;
    by rewrite !list_lookup_alter_ne.
Qed.

Lemma edit_indexed_card_id oid q a cat m r :
  card_id <$> heap (edit_indexed oid q a cat m) !! r = card_id <$> heap m !! r.
Proof.
  unfold edit_indexed. destruct (_node_index m !! oid) as [node|]; [|done].
  destruct (decide (node = r)) as [->|Hne].
  - destruct cat as [cat|]; [destruct (truthy (Some cat))|]; cbn;
      rewrite !list_lookup_alter_eq; by destruct (heap m !! r).
  - destruct cat as [cat|]; [destruct (truthy (Some cat))|]; cbn;
      by rewrite !list_lookup_alter_ne.
Qed.

Lemma list_edit_card_id oid q a m r :
  card_id <$> heap (LinkedList.edit_card oid q a m).2 !! r = card_id <$> heap m !! r.
Proof.
  rewrite list_edit_lookup. destruct (LinkedList.locate oid m) as [[i node]|]; [|done].
  case_decide; [|done]. by destruct (heap m !! r).
Qed.

Lemma edit_card_frame_ids oid q a cat self :
  _node_index (mem (edit_card oid q a cat self).2) = _node_index (mem self) ∧
  ∀ r, card_id <$> heap (mem (edit_card oid q a cat self).2) !! r
       = card_id <$> heap (mem self) !! r.
Proof.
  rewrite edit_card_unfold. cbn [snd mem].
  destruct (list_edit_frame oid q a (mem self)) as (_ & _ & _ & _ & Hi & _).
  destruct (edit_indexed_frame oid q a cat (LinkedList.edit_card oid q a (mem self)).2)
    as (_ & _ & _ & Hi' & _).
  split; [congruence|]. intros r. by rewrite edit_indexed_card_id, list_edit_card_id.
Qed.

(** X4: [edit_card] rewrites fields and nothing else: whatever the
    arguments and the store's answer, the ordered list, the index, the
    practice queue and the review stack hold the same references in the same
    order, no node is created or dropped, no node changes its [card_id],
    and a node that is neither the list's entry for the id nor the index's
    entry for the id keeps all its fields. *)
Theorem edit_card_keeps_identity_and_order oid q a cat self :
  let s' := (edit_card oid q a cat self).2 in
  linked_list (mem s') = linked_list (mem self) ∧
  _node_index (mem s') = _node_index (mem self) ∧
  practice_queue (mem s') = practice_queue (mem self) ∧
  review_history (mem s') = review_history (mem self) ∧
  length (heap (mem s')) = length (heap (mem self)) ∧
  (∀ r, card_id <$> heap (mem s') !! r = card_id <$> heap (mem self) !! r) ∧
  (∀ r, snd <$> LinkedList.locate oid (mem self) ≠ Some r →
        _node_index (mem self) !! oid ≠ Some r →
        heap (mem s') !! r = heap (mem self) !! r).
Proof.
  intros s'. subst s'. rewrite edit_card_unfold. cbn [snd mem].
  destruct (list_edit_frame oid q a (mem self)) as (Hl & Hq & Hs & Hc & Hi & Hn).
  destruct (edit_indexed_frame oid q a cat (LinkedList.edit_card oid q a (mem self)).2)
    as (Hl' & Hq' & Hs' & Hi' & Hn').
  split; [congruence|]. split; [congruence|]. split; [congruence|].
  split; [congruence|]. split; [congruence|]. split.
  - intros r. by rewrite edit_indexed_card_id, list_edit_card_id.
  - intros r Hlist Hidx. rewrite edit_indexed_lookup by (by rewrite Hi).
    rewrite list_edit_lookup.
    destruct (LinkedList.locate oid (mem self)) as [[i node]|]; [|done].
    case_decide; [|done]. subst. by destruct Hlist.
Qed.

(** X5: for an id that neither the ordered list nor the index knows,
    [edit_card] answers [False] and leaves memory as it was, but the update
    has gone to the store all the same: the collection is the one
    [update_one] produced, even if that modified a document. *)
Theorem edit_card_unknown_id oid q a cat self :
  (LinkedList.edit_card oid q a (mem self)).1 = false →
  _node_index (mem self) !! oid = None →
  let s' := (edit_card oid q a cat self).2 in
  (edit_card oid q a cat self).1 = false ∧
  mem s' = mem self ∧
  collection s' = (update_one oid (edit_update_fields q a cat) (collection self)).2 ∧
  calls_during self s' = [(UpdateOne oid (edit_update_fields q a cat), mem self)].
Proof.
  intros Hlist Hidx s'. subst s'. rewrite edit_card_unfold. cbn [fst snd mem collection].
  rewrite Hlist, calls_during_snoc.
  assert (Hm : (LinkedList.edit_card oid q a (mem self)).2 = mem self).
  { unfold LinkedList.edit_card in *.
    by destruct (LinkedList.locate oid (mem self)) as [[i r]|]. }
  rewrite Hm, edit_indexed_absent by done. done.
Qed.

(** X6: with a non-empty [new_cat], [edit_card] sends the three fields to
    the store and the indexed node ends up with the new question, answer
    and category and as a member of the bucket of the new category. *)
Theorem edit_card_writes_truthy_category oid q a cat self node n :
  cat ≠ "" →
  _node_index (mem self) !! oid = Some node → heap (mem self) !! node = Some n →
  let s' := (edit_card oid q a (Some cat) self).2 in
  edit_update_fields q a (Some cat)
  = {[ "question" := q; "answer" := a; "category" := cat ]} ∧
  (∃ m, calls_during self s' = [(UpdateOne oid (edit_update_fields q a (Some cat)), m)]) ∧
  heap (mem s') !! node = Some (mkNode (card_id n) q a cat) ∧
  node ∈ get_by_category cat s'.
Proof.
  intros Hcat Hidx Hn s'.
  assert (Ht : truthy (Some cat) = true) by (cbn; by apply bool_decide_eq_true).
  split; [|split; [|split]].
  - unfold edit_update_fields. rewrite Ht. apply map_eq. intros k.
    destruct (decide (k = "category")) as [->|?]; [by simplify_map_eq|].
    destruct (decide (k = "question")) as [->|?]; [by simplify_map_eq|].
    destruct (decide (k = "answer")) as [->|?]; [by simplify_map_eq|].
    by simplify_map_eq.
  - subst s'. rewrite edit_card_unfold. cbn [snd]. rewrite calls_during_snoc. by eexists.
  - subst s'. rewrite (edit_card_node oid q a (Some cat) self node n Hidx Hn).
    by rewrite Ht.
  - subst s'. rewrite edit_card_unfold. cbn [snd]. unfold get_by_category. cbn [mem].
    destruct (list_edit_frame oid q a (mem self)) as (_ & _ & _ & _ & Hi & _).
    unfold edit_indexed. rewrite Hi, Hidx, Ht. cbn [category_manager with_category_manager].
    unfold CategoryManager.update_category.
    rewrite bucket_after_add_to_category. apply elem_of_app. right.
    apply list_elem_of_singleton. done.
Qed.

End EditMore.

Section DeleteMore.

Context {C : Type} `{Collection C}.
Implicit Types (self : FlashcardDB C) (m : Memory) (oid : ObjectId) (node : ref).

Lemma filter_others_remove_first (x : ref) (l : list ref) :
  filter (λ y, y ≠ x) (remove_first x l) = filter (λ y, y ≠ x) l.
Proof.
  induction l as [|y l IH]; [done|]. cbn [remove_first]. case_decide as Hxy.
  - subst. by rewrite filter_cons_False by (by intros ?).
  - rewrite !filter_cons, IH. done.
Qed.

Lemma occurrences_none (x : ref) (l : list ref) : occurrences x l = 0 → x ∉ l.
Proof.
  induction l as [|y l IH]; [intros _; apply not_elem_of_nil|].
  rewrite occurrences_cons. case_decide; [done|]. cbn. intros Hz.
  apply not_elem_of_cons. split; [done|auto].
Qed.

Lemma remove_first_not_in (x : ref) (l : list ref) : x ∉ l → remove_first x l = l.
Proof.
  induction l as [|y l IH]; [done|]. rewrite not_elem_of_cons. intros [Hne Hl].
  cbn. case_decide; [done|]. by rewrite IH.
Qed.

(** The guarded [remove] calls of [delete_card], in one step each. *)
Lemma delete_indexed_sequences oid node m :
  _node_index m !! oid = Some node →
  practice_queue (delete_indexed oid m) = remove_first node (practice_queue m) ∧
  review_history (delete_indexed oid m) = remove_first node (review_history m).
Proof.
  intros Hidx. unfold delete_indexed. rewrite Hidx.
  destruct m as [h l q s c i]. cbn.
  repeat case_bool_decide; cbn in *; split;
    done || (symmetry; by apply remove_first_not_in).
Qed.

(** What the index block of [delete_card] leaves alone. *)
Lemma delete_indexed_frame oid m :
  heap (delete_indexed oid m) = heap m ∧
  linked_list (delete_indexed oid m) = linked_list m ∧
  _node_index (delete_indexed oid m) = delete oid (_node_index m).
Proof.
  unfold delete_indexed. destruct (_node_index m !! oid) as [node|] eqn:Hidx.
  - destruct m as [h l q s c i]. cbn. by repeat case_bool_decide.
  - by rewrite delete_id.
Qed.

Lemma delete_indexed_absent oid m :
  _node_index m !! oid = None → delete_indexed oid m = m.
Proof. intros Hidx. unfold delete_indexed. by rewrite Hidx. Qed.

Lemma delete_indexed_others oid node m :
  _node_index m !! oid = Some node →
  filter (λ r, r ≠ node) (practice_queue (delete_indexed oid m))
  = filter (λ r, r ≠ node) (practice_queue m) ∧
  filter (λ r, r ≠ node) (review_history (delete_indexed oid m))
  = filter (λ r, r ≠ node) (review_history m).
Proof.
  intros Hidx. unfold delete_indexed. rewrite Hidx.
  destruct m as [h l q s c i]. cbn.
  repeat case_bool_decide; cbn; by rewrite ?filter_others_remove_first.
Qed.

(** X7: [delete_card] answers [True] exactly when the ordered list removed
    an entry for the id and the store reports a deleted document.  Whatever
    the answer, the collection is the one [delete_one] produced and the id
    is gone from the index, which is otherwise unchanged. *)
Theorem delete_card_result oid self :
  let ok_list := (LinkedList.delete_card oid (mem self)).1 in
  let stored := delete_one oid (collection self) in
  let s' := (delete_card oid self).2 in
  ((delete_card oid self).1 = true ↔ ok_list = true ∧ 0 < stored.1) ∧
  collection s' = stored.2 ∧
  _node_index (mem s') = delete oid (_node_index (mem self)).
Proof.
  intros ok_list stored s'. subst s'. rewrite delete_card_unfold. cbn [fst snd mem collection].
  split; [|split; [done|]].
  - by rewrite andb_true_iff, bool_decide_eq_true.
  - destruct (delete_indexed_frame oid (LinkedList.delete_card oid (mem self)).2)
      as (_ & _ & ->).
    by destruct (list_delete_frame oid (mem self)) as (_ & _ & _ & _ & ->).
Qed.

(** X8: for an id that neither the ordered list nor the index knows,
    [delete_card] answers [False] and leaves memory as it was, but the
    delete has gone to the store all the same. *)
Theorem delete_card_unknown_id oid self :
  (LinkedList.delete_card oid (mem self)).1 = false →
  _node_index (mem self) !! oid = None →
  let s' := (delete_card oid self).2 in
  (delete_card oid self).1 = false ∧
  mem s' = mem self ∧
  collection s' = (delete_one oid (collection self)).2 ∧
  calls_during self s' = [(DeleteOne oid, mem self)].
Proof.
  intros Hlist Hidx s'. subst s'. rewrite delete_card_unfold. cbn [fst snd mem collection].
  rewrite Hlist, calls_during_snoc.
  assert (Hm : (LinkedList.delete_card oid (mem self)).2 = mem self).
  { unfold LinkedList.delete_card in *.
    by destruct (LinkedList.locate oid (mem self)) as [[i r]|]. }
  rewrite Hm, delete_indexed_absent by done. done.
Qed.

(** X9: [delete_card] changes no field of any node, and in the practice
    queue and the review stack it touches only entries of the node it found
    in the index: the entries of every other node stay, in the same order.
    When the index does not know the id, queue, stack and buckets are not
    touched at all. *)
Theorem delete_card_keeps_other_entries oid self :
  let s' := (delete_card oid self).2 in
  heap (mem s') = heap (mem self) ∧
  match _node_index (mem self) !! oid with
  | Some node =>
      filter (λ r, r ≠ node) (practice_queue (mem s'))
      = filter (λ r, r ≠ node) (practice_queue (mem self)) ∧
      filter (λ r, r ≠ node) (review_history (mem s'))
      = filter (λ r, r ≠ node) (review_history (mem self))
  | None =>
      practice_queue (mem s') = practice_queue (mem self) ∧
      review_history (mem s') = review_history (mem self) ∧
      category_manager (mem s') = category_manager (mem self)
  end.
Proof.
  intros s'. subst s'. rewrite delete_card_unfold. cbn [snd mem].
  destruct (list_delete_frame oid (mem self)) as (Hh & Hq & Hs & Hc & Hi).
  destruct (delete_indexed_frame oid (LinkedList.delete_card oid (mem self)).2)
    as (Hh' & _ & _).
  split; [congruence|].
  destruct (_node_index (mem self) !! oid) as [node|] eqn:Hidx.
  - rewrite <- Hq, <- Hs. apply delete_indexed_others. by rewrite Hi.
  - rewrite delete_indexed_absent by (by rewrite Hi). done.
Qed.

(** X10: [delete_card] takes exactly one entry of the node out of the
    practice queue and one out of the review stack (none where there is
    none).  So a card that sits at most once in the queue and at most once
    in the stack is gone from both after the call. *)
Theorem delete_card_purges_single_entries oid node self :
  _node_index (mem self) !! oid = Some node →
  let s' := (delete_card oid self).2 in
  occurrences node (practice_queue (mem s'))
  = pred (occurrences node (practice_queue (mem self))) ∧
  occurrences node (review_history (mem s'))
  = pred (occurrences node (review_history (mem self))) ∧
  ((occurrences node (practice_queue (mem self)) ≤ 1)%nat →
   node ∉ practice_queue (mem s')) ∧
  ((occurrences node (review_history (mem self)) ≤ 1)%nat →
   node ∉ review_history (mem s')).
Proof.
  intros Hidx s'. subst s'.
  destruct (delete_card_drops_one_entry oid node self Hidx) as [Hq Hs].
  split; [done|]. split; [done|].
  split; intros Hone; apply occurrences_none; [rewrite Hq|rewrite Hs]; lia.
Qed.

(** X11: in a well-formed state, adding a card under an id the index does
    not hold yet and then deleting that id gives back the index, the
    practice queue, the review stack and every category bucket as they
    were. *)
Theorem add_then_delete_restores_views q a cat self :
  let oid :=
    (insert_one {[ "question" := q; "answer" := a; "category" := cat ]}
       (collection self)).1 in
  well_formed (mem self) → _node_index (mem self) !! oid = None →
  let s2 := (delete_card oid (add_card q a cat self).2).2 in
  _node_index (mem s2) = _node_index (mem self) ∧
  practice_queue (mem s2) = practice_queue (mem self) ∧
  review_history (mem s2) = review_history (mem self) ∧
  ∀ category, get_by_category category s2 = get_by_category category self.
Proof.
  intros oid Hwf Hfresh s2. subst s2.
  destruct (add_card_views q a cat self) as (_ & _ & Hh & Hi & Hs & _ & Hq & Hc).
  fold oid in Hh, Hi.
  set (s1 := (add_card q a cat self).2) in *.
  set (node := length (heap (mem self))) in *.
  assert (Hnq : node ∉ practice_queue (mem self)).
  { intros Hin. destruct Hwf as [_ Hwq _ _ _]. rewrite Forall_forall in Hwq.
    apply Hwq in Hin. unfold allocated in Hin. subst node. lia. }
  assert (Hns : node ∉ review_history (mem self)).
  { intros Hin. destruct Hwf as [_ _ Hws _ _]. rewrite Forall_forall in Hws.
    apply Hws in Hin. unfold allocated in Hin. subst node. lia. }
  assert (Hnb : node ∉ get_by_category cat self).
  { intros Hin. apply (bucket_allocated _ _ _ Hwf) in Hin.
    unfold allocated in Hin. subst node. lia. }
  rewrite delete_card_unfold. cbn [snd mem].
  destruct (list_delete_frame oid (mem s1)) as (Hh1 & Hq1 & Hs1 & Hc1 & Hi1).
  set (m1 := (LinkedList.delete_card oid (mem s1)).2) in *.
  assert (Hidx1 : _node_index m1 !! oid = Some node).
  { rewrite Hi1, Hi. apply lookup_insert_eq. }
  split; [|split; [|split]].
  - destruct (delete_indexed_frame oid m1) as (_ & _ & ->).
    rewrite Hi1, Hi, delete_insert_eq. by apply delete_id.
  - destruct (delete_indexed_sequences oid node m1 Hidx1) as [-> _].
    rewrite Hq1, Hq. by apply remove_first_snoc.
  - destruct (delete_indexed_sequences oid node m1 Hidx1) as [_ ->].
    rewrite Hs1, Hs. by apply remove_first_not_in.
  - intros category. unfold get_by_category. cbn [mem].
    rewrite (delete_indexed_bucket oid node m1 Hidx1).
    assert (Hcat : category_of m1 node = cat).
    { unfold category_of. rewrite Hh1, Hh. subst node. by rewrite list_lookup_middle. }
    rewrite Hcat, Hc1, Hc.
    destruct (decide (category = cat)) as [->|Hne].
    + by apply bucket_after_remove_last.
    + unfold CategoryManager.get_by_category, CategoryManager.remove_from_category,
        CategoryManager.add_to_category.
      rewrite lookup_insert_eq.
      destruct (remove_first node _); by rewrite ?lookup_delete_ne, ?lookup_insert_ne by done.
Qed.

End DeleteMore.

Section ReviewMore.

Context {C : Type} `{Collection C}.
Implicit Types (self : FlashcardDB C) (m : Memory) (oid : ObjectId) (node : ref).

(** X12: reviewing never reaches the store and never changes a card:
    [mark_reviewed], [next_card] and [revisit_last] send no request, leave
    the collection, every node, the ordered list, the index and the
    category buckets as they are; [next_card] does not touch the review
    stack, and [revisit_last] and a review marked correct do not touch the
    practice queue. *)
Theorem review_operations_stay_in_memory oid correct self :
  same_cards_and_store self (mark_reviewed oid correct self).2 ∧
  same_cards_and_store self (next_card self).2 ∧
  same_cards_and_store self (revisit_last self).2 ∧
  review_history (mem (next_card self).2) = review_history (mem self) ∧
  practice_queue (mem (revisit_last self).2) = practice_queue (mem self) ∧
  practice_queue (mem (mark_reviewed oid true self).2) = practice_queue (mem self).
Proof.
  unfold same_cards_and_store, mark_reviewed, next_card, revisit_last, _ensure_oid.
  destruct (_node_index (mem self) !! oid) as [node|];
    destruct (practice_queue (mem self)) as [|x rest] eqn:Hq;
    destruct (ReviewHistory.pop (review_history (mem self))) as [top stack];
    destruct correct; cbn; rewrite ?Hq; done.
Qed.

Lemma length_remove_first (x : ref) (l : list ref) :
  x ∈ l → length (remove_first x l) = pred (length l).
Proof.
  induction l as [|y l IH]; [by intros ?%elem_of_nil|].
  cbn [remove_first]. case_decide as Hxy; [done|].
  intros [?|Hin]%elem_of_cons; [done|]. cbn. rewrite IH by done.
  destruct l; [by apply elem_of_nil in Hin|done].
Qed.

(** X13: how each public call moves [queue_size]: [add_card] adds one;
    [edit_card] and [revisit_last] leave it; [delete_card] takes one off
    when the index knows the id and its node is queued, however many times
    it is queued; [next_card] takes one off and answers [None] exactly on
    the empty queue; [mark_reviewed] adds one exactly when it succeeds with
    [correct = False]. *)
Theorem queue_size_bookkeeping oid q a cat new_cat correct self :
  queue_size (add_card q a cat self).2 = S (queue_size self) ∧
  queue_size (edit_card oid q a new_cat self).2 = queue_size self ∧
  queue_size (delete_card oid self).2
  = queue_size self
    - match _node_index (mem self) !! oid with
      | Some node => if bool_decide (node ∈ practice_queue (mem self)) then 1 else 0
      | None => 0
      end ∧
  queue_size (next_card self).2 = pred (queue_size self) ∧
  ((next_card self).1 = None ↔ queue_size self = 0) ∧
  queue_size (mark_reviewed oid correct self).2
  = queue_size self
    + (if (mark_reviewed oid correct self).1 && negb correct then 1 else 0) ∧
  queue_size (revisit_last self).2 = queue_size self.
Proof.
  unfold queue_size. split; [|split; [|split; [|split; [|split; [|split]]]]].
  - destruct (add_card_views q a cat self) as (_ & _ & _ & _ & _ & _ & -> & _).
    rewrite length_app. cbn. lia.
  - rewrite edit_card_unfold. cbn [snd mem].
    destruct (list_edit_frame oid q a (mem self)) as (_ & Hq & _).
    destruct (edit_indexed_frame oid q a new_cat (LinkedList.edit_card oid q a (mem self)).2)
      as (_ & Hq' & _).
    congruence.
  - rewrite delete_card_unfold. cbn [snd mem].
    destruct (list_delete_frame oid (mem self)) as (_ & Hq & _ & _ & Hi).
    destruct (_node_index (mem self) !! oid) as [node|] eqn:Hidx.
    + destruct (delete_indexed_sequences oid node (LinkedList.delete_card oid (mem self)).2)
        as [-> _]; [by rewrite Hi|].
      rewrite Hq. case_bool_decide as Hin.
      * rewrite length_remove_first by done. lia.
      * rewrite remove_first_not_in by done. lia.
    + rewrite delete_indexed_absent by (by rewrite Hi). rewrite Hq. lia.
  - unfold next_card. destruct (practice_queue (mem self)) eqn:Hq; cbn; by rewrite ?Hq.
  - unfold next_card. destruct (practice_queue (mem self)); cbn; naive_solver.
  - unfold mark_reviewed, _ensure_oid.
    destruct (_node_index (mem self) !! oid) as [node|]; [|cbn; lia].
    destruct correct; cbn; rewrite ?length_app; cbn; lia.
  - unfold revisit_last. by destruct (ReviewHistory.pop _).
Qed.

End ReviewMore.

Section Invariant.

Context {C : Type} `{Collection C}.
Implicit Types (self : FlashcardDB C) (m : Memory) (oid : ObjectId) (node : ref).

(** A new card keeps the index honest: its key is the new node's id, and
    the nodes of the other keys are not touched. *)
Lemma index_consistent_new_card oid q a cat m :
  well_formed m → index_consistent m →
  index_consistent (memory_half_of_add oid q a cat m).
Proof.
  intros Hwf Hic.
  destruct (memory_half_of_add_views oid q a cat m) as (Hh & _ & _ & _ & Hi).
  unfold index_consistent. rewrite Hi, Hh. apply map_Forall_insert_2.
  - by rewrite list_lookup_middle.
  - intros k r Hk. pose proof (wf_node_index _ Hwf k r Hk) as Hr.
    rewrite lookup_app_l by exact Hr. by apply (Hic k r).
Qed.

Lemma well_formed_new_card_half oid q a cat m :
  well_formed m → well_formed (memory_half_of_add oid q a cat m).
Proof.
  intros Hwf. refine (well_formed_new_card m _ oid cat Hwf _).
  cbn. rewrite !length_alter, length_app. cbn. lia.
Qed.

Lemma startup_invariant (cards : list (ObjectId * Document)) m :
  well_formed m → index_consistent m →
  let m' := foldl (λ m card_data,
                     memory_half_of_add card_data.1
                       (default "" (card_data.2 !! "question"))
                       (default "" (card_data.2 !! "answer"))
                       (default "Uncategorized" (card_data.2 !! "category")) m)
                  m cards in
  well_formed m' ∧ index_consistent m'.
Proof.
  revert m. induction cards as [|d cards IH]; intros m Hwf Hic; [done|].
  cbn [foldl]. apply IH.
  - by apply well_formed_new_card_half.
  - by apply index_consistent_new_card.
Qed.

Lemma init_readable (c : C) self : init c = Some self → Forall readable (find c).
Proof.
  intros Hinit. apply Forall_forall. intros d Hin.
  destruct (decide (readable d)) as [|Hbad]; [done|]. exfalso.
  unfold init, _load_cards_into_memory in Hinit. cbn [collection mem] in Hinit.
  assert (Hnone : load_cards (find c) empty_memory = None).
  { apply load_cards_None, Exists_exists. by exists d. }
  by rewrite Hnone in Hinit.
Qed.

Lemma init_memory (c : C) self : init c = Some self → mem self = startup_views (find c).
Proof.
  intros Hinit. pose proof (init_readable c self Hinit) as Hall.
  unfold init, _load_cards_into_memory in Hinit. cbn [collection mem store_calls] in Hinit.
  rewrite load_cards_memory in Hinit by exact Hall. cbn in Hinit. by injection Hinit as <-.
Qed.

Lemma memory_half_of_add_buckets oid q a cat m :
  category_manager (memory_half_of_add oid q a cat m)
  = CategoryManager.add_to_category cat (length (heap m)) (category_manager m).
Proof. done. Qed.

Lemma bucket_add_to_category c cat node (cm : gmap string (list ref)) :
  CategoryManager.get_by_category c (CategoryManager.add_to_category cat node cm)
  = if decide (c = cat) then CategoryManager.get_by_category c cm ++ [node]
    else CategoryManager.get_by_category c cm.
Proof.
  case_decide as Hc.
  - subst. apply bucket_after_add_to_category.
  - unfold CategoryManager.add_to_category, CategoryManager.get_by_category at 1.
    by rewrite lookup_insert_ne.
Qed.

Lemma bucket_add_to_category_mono c cat node r (cm : gmap string (list ref)) :
  r ∈ CategoryManager.get_by_category c cm →
  r ∈ CategoryManager.get_by_category c (CategoryManager.add_to_category cat node cm).
Proof.
  intros Hin. rewrite bucket_add_to_category. case_decide; [|done].
  apply elem_of_app. by left.
Qed.

Lemma elem_of_remove_first_other (x r : ref) (l : list ref) :
  r ≠ x → r ∈ l → r ∈ remove_first x l.
Proof.
  intros Hne. induction l as [|y l IH]; [done|]. cbn.
  intros [->|Hin]%elem_of_cons.
  - case_decide; [congruence|]. by apply elem_of_cons; left.
  - case_decide; [done|]. apply elem_of_cons. right. by apply IH.
Qed.

(** Taking a node out of a bucket leaves the other nodes where they are. *)
Lemma bucket_remove_from_category_other c old node r (cm : gmap string (list ref)) :
  r ≠ node →
  r ∈ CategoryManager.get_by_category c cm →
  r ∈ CategoryManager.get_by_category c
        (CategoryManager.remove_from_category old node cm).
Proof.
  intros Hne Hin. unfold CategoryManager.remove_from_category.
  destruct (cm !! old) as [bucket|] eqn:Hb; [|done].
  destruct (decide (c = old)) as [->|Hc].
  - unfold CategoryManager.get_by_category in Hin. rewrite Hb in Hin. cbn in Hin.
    pose proof (elem_of_remove_first_other node r bucket Hne Hin) as Hin'.
    destruct (remove_first node bucket) as [|y rest] eqn:Hrest.
    + by apply elem_of_nil in Hin'.
    + unfold CategoryManager.get_by_category. by rewrite lookup_insert_eq.
  - unfold CategoryManager.get_by_category in *.
    destruct (remove_first node bucket); by rewrite ?lookup_delete_ne, ?lookup_insert_ne.
Qed.

Lemma categorized_new_card oid q a cat m :
  well_formed m → categorized m → categorized (memory_half_of_add oid q a cat m).
Proof.
  intros Hwf Hcz.
  destruct (memory_half_of_add_views oid q a cat m) as (Hh & _ & _ & _ & Hi).
  unfold categorized, category_of.
  rewrite Hi, Hh, memory_half_of_add_buckets. apply map_Forall_insert_2.
  - rewrite list_lookup_middle by done. cbn. rewrite bucket_after_add_to_category.
    apply elem_of_app. right. by apply list_elem_of_singleton.
  - intros k r Hk. pose proof (wf_node_index _ Hwf k r Hk) as Hr.
    rewrite lookup_app_l by exact Hr. apply bucket_add_to_category_mono.
    by apply (Hcz k r).
Qed.

Lemma startup_categorized (cards : list (ObjectId * Document)) m :
  well_formed m → categorized m →
  categorized
    (foldl (λ m card_data,
              memory_half_of_add card_data.1
                (default "" (card_data.2 !! "question"))
                (default "" (card_data.2 !! "answer"))
                (default "Uncategorized" (card_data.2 !! "category")) m)
           m cards).
Proof.
  revert m. induction cards as [|d cards IH]; intros m Hwf Hcz; [done|].
  cbn [foldl]. apply IH.
  - by apply well_formed_new_card_half.
  - by apply categorized_new_card.
Qed.

Lemma categorized_edit_indexed oid q a cat m :
  well_formed m → categorized m → categorized (edit_indexed oid q a cat m).
Proof.
  intros Hwf Hcz. destruct (truthy cat) eqn:Ht.
  - unfold edit_indexed.
    destruct (_node_index m !! oid) as [node|] eqn:Hidx; [|done].
    destruct cat as [cat|]; [|done]. rewrite Ht.
    pose proof (wf_node_index _ Hwf oid node Hidx) as Hnode.
    apply lookup_lt_is_Some_2 in Hnode as [n Hn].
    intros k r Hk. cbn in Hk. cbn [category_manager with_category_manager].
    unfold CategoryManager.update_category.
    destruct (decide (r = node)) as [->|Hne].
    + unfold category_of at 1. cbn [heap with_category_manager assign with_heap].
      rewrite !list_lookup_alter_eq, Hn. cbn.
      rewrite bucket_after_add_to_category. apply elem_of_app. right.
      by apply list_elem_of_singleton.
    + unfold category_of at 1. cbn [heap with_category_manager assign with_heap].
      rewrite !list_lookup_alter_ne by done.
      apply bucket_add_to_category_mono, bucket_remove_from_category_other; [done|].
      by apply (Hcz k r).
  - destruct (edit_indexed_falsy oid q a cat m Ht) as (_ & Hc & Hcat).
    destruct (edit_indexed_frame oid q a cat m) as (_ & _ & _ & Hi & _).
    unfold categorized. rewrite Hi, Hc. intros k r Hk. rewrite Hcat. by apply (Hcz k r).
Qed.

Lemma categorized_delete_indexed oid m :
  index_consistent m → categorized m → categorized (delete_indexed oid m).
Proof.
  intros Hic Hcz.
  destruct (_node_index m !! oid) as [node|] eqn:Hidx;
    [|by rewrite delete_indexed_absent].
  destruct (delete_indexed_frame oid m) as (Hh & _ & Hi).
  unfold categorized. rewrite Hi, (delete_indexed_bucket oid node m Hidx).
  intros k r Hk. apply lookup_delete_Some in Hk as [Hne Hk].
  assert (Hrn : r ≠ node).
  { intros ->. pose proof (Hic oid node Hidx) as H1. pose proof (Hic k node Hk) as H2.
    cbn in H1, H2. congruence. }
  unfold category_of at 1. rewrite Hh.
  apply bucket_remove_from_category_other; [done|]. by apply (Hcz k r).
Qed.

(** What holds of every state a [FlashcardDB] object can reach. *)
Lemma reachable_invariant (c : C) self :
  reachable c self →
  well_formed (mem self) ∧ index_consistent (mem self) ∧ categorized (mem self).
Proof.
  induction 1 as [self Hinit|self q a cat _ (Hwf & Hic & Hcz)
                  |self oid q a cat _ (Hwf & Hic & Hcz)
                  |self oid _ (Hwf & Hic & Hcz)|self _ (Hwf & Hic & Hcz)
                  |self oid correct _ (Hwf & Hic & Hcz)|self _ (Hwf & Hic & Hcz)].
  - rewrite (init_memory c self Hinit).
    destruct (startup_invariant (find c) empty_memory) as [Hwf Hic];
      [apply well_formed_empty|apply map_Forall_empty|].
    split; [exact Hwf|]. split; [exact Hic|].
    apply startup_categorized; [apply well_formed_empty|apply map_Forall_empty].
  - split; [by apply well_formed_add_card|]. rewrite add_card_memory.
    split; [by apply index_consistent_new_card|by apply categorized_new_card].
  - split; [by apply well_formed_edit_card|]. split.
    + destruct (edit_card_frame_ids oid q a cat self) as (Hi & Hid).
      unfold index_consistent. rewrite Hi. intros k r Hk. rewrite Hid. by apply (Hic k r).
    + rewrite edit_card_unfold. cbn [snd mem].
      apply categorized_edit_indexed; [by apply well_formed_list_edit|].
      destruct (list_edit_frame oid q a (mem self)) as (_ & _ & _ & Hc & Hi & _).
      unfold categorized. rewrite Hi, Hc. intros k r Hk.
      rewrite list_edit_category. by apply (Hcz k r).
  - split; [by apply well_formed_delete_card|].
    rewrite delete_card_unfold. cbn [snd mem].
    destruct (list_delete_frame oid (mem self)) as (Hh & _ & _ & Hc & Hi).
    assert (Hic1 : index_consistent (LinkedList.delete_card oid (mem self)).2).
    { unfold index_consistent. by rewrite Hi, Hh. }
    split.
    + destruct (delete_indexed_frame oid (LinkedList.delete_card oid (mem self)).2)
        as (Hh' & _ & Hi').
      unfold index_consistent. rewrite Hi', Hh'. by apply map_Forall_delete.
    + apply categorized_delete_indexed; [done|].
      unfold categorized, category_of. by rewrite Hi, Hc, Hh.
  - split; [by apply well_formed_next_card|].
    unfold next_card. by destruct (practice_queue (mem self)).
  - split; [by apply well_formed_mark_reviewed|].
    unfold mark_reviewed, _ensure_oid.
    destruct (_node_index (mem self) !! oid); [|done]. by destruct correct.
  - split; [by apply well_formed_revisit_last|].
    unfold revisit_last. by destruct (ReviewHistory.pop _).
Qed.

(** X14: in every state a [FlashcardDB] object can reach (construction,
    then any run of public calls, whatever the store answers), the node
    that the index gives for an id exists and carries that id as its
    [card_id], and every reference held by the ordered list, the practice
    queue, the review stack, a category bucket or the index is a node that
    exists. *)
Theorem reachable_states_are_consistent (c : C) self :
  reachable c self →
  well_formed (mem self) ∧
  ∀ oid node, _node_index (mem self) !! oid = Some node →
    ∃ n, heap (mem self) !! node = Some n ∧ card_id n = Some oid.
Proof.
  intros Hreach. destruct (reachable_invariant c self Hreach) as (Hwf & Hic & _).
  split; [done|]. intros oid node Hidx.
  pose proof (Hic oid node Hidx) as Hid. cbn in Hid.
  destruct (heap (mem self) !! node) as [n|]; [|done].
  exists n. split; [done|]. by injection Hid.
Qed.

(** X18: in every reachable state, a card the index knows is listed by
    [get_by_category] under the category it currently has. *)
Theorem reachable_cards_are_categorized (c : C) self oid node n :
  reachable c self →
  _node_index (mem self) !! oid = Some node → heap (mem self) !! node = Some n →
  node ∈ get_by_category (category n) self.
Proof.
  intros Hreach Hidx Hn. destruct (reachable_invariant c self Hreach) as (_ & _ & Hcz).
  pose proof (Hcz oid node Hidx) as Hin. cbn in Hin.
  unfold category_of in Hin. by rewrite Hn in Hin.
Qed.

End Invariant.

Section Listing.

Context {C : Type} `{Collection C}.
Implicit Types (self : FlashcardDB C) (m : Memory) (oid : ObjectId) (node : ref).

Lemma traverse_grown (h : list Node) (n : Node) (l : list ref) :
  Forall (λ r, r < length h) l →
  omap (λ r, (h ++ [n]) !! r) l = omap (λ r, h !! r) l.
Proof.
  induction 1 as [|r l Hr _ IH]; [done|]. cbn. by rewrite IH, lookup_app_l.
Qed.

Lemma traverse_all (h : list Node) (k : nat) :
  omap (λ r, h !! r) (seq k (length h - k)) = drop k h.
Proof.
  remember (length h - k) as d eqn:Hd. revert k Hd.
  induction d as [|d IH]; intros k Hd.
  - cbn. symmetry. apply drop_ge. lia.
  - cbn [seq omap list_omap]. destruct (lookup_lt_is_Some_2 h k) as [n Hn]; [lia|].
    rewrite Hn. rewrite (IH (S k)) by lia. symmetry. by apply drop_S.
Qed.

(** X15: in a well-formed state, [add_card] adds one line at the end of
    what [list_all] prints, the line of the new card with the id the store
    assigned, and leaves the lines before it as they were. *)
Theorem list_all_after_add_card show_id q a cat self :
  well_formed (mem self) →
  let oid :=
    (insert_one {[ "question" := q; "answer" := a; "category" := cat ]}
       (collection self)).1 in
  list_all show_id (add_card q a cat self).2
  = list_all show_id self ++ [card_line show_id (mkNode (Some oid) q a cat)].
Proof.
  intros Hwf oid. unfold list_all, LinkedList.traverse.
  destruct (add_card_views q a cat self) as (_ & _ & Hh & _ & _ & Hl & _).
  fold oid in Hh. rewrite Hh, Hl, omap_app, fmap_app.
  rewrite traverse_grown by apply (wf_linked_list _ Hwf).
  cbn [omap list_omap]. by rewrite list_lookup_middle.
Qed.

(** X16: right after construction [list_all] prints one line per document
    of the collection, in the order [find] returned them, each with the
    document's id, question and answer and its category or
    ["Uncategorized"]. *)
Theorem list_all_after_init show_id (c : C) self :
  init c = Some self →
  list_all show_id self = (λ card_data, card_line show_id (loaded_node card_data)) <$> find c.
Proof.
  intros Hinit. unfold list_all, LinkedList.traverse.
  rewrite (init_memory c self Hinit).
  destruct (startup_views_shape (find c)) as (Hh & Hl & _). rewrite Hh, Hl.
  pose proof (traverse_all (loaded_node <$> find c) 0) as Ht.
  rewrite length_fmap, Nat.sub_0_r, drop_0 in Ht. rewrite Ht.
  by rewrite <- list_fmap_compose.
Qed.

End Listing.

Section Composition.

Context {C : Type} `{Collection C}.
Implicit Types (self : FlashcardDB C) (m : Memory) (oid : ObjectId) (node : ref).

(** The ordered list finds the card that [add_card] has just appended. *)
Lemma add_card_listed q a cat self :
  let oid :=
    (insert_one {[ "question" := q; "answer" := a; "category" := cat ]}
       (collection self)).1 in
  is_Some (LinkedList.locate oid (mem (add_card q a cat self).2)).
Proof.
  intros oid. destruct (add_card_views q a cat self) as (_ & _ & Hh & _ & _ & Hl & _).
  fold oid in Hh. unfold LinkedList.locate.
  apply (list_find_elem_of _ _ (length (heap (mem self)))).
  - rewrite Hl. apply elem_of_app. right. by apply list_elem_of_singleton.
  - unfold LinkedList.has_id. by rewrite Hh, list_lookup_middle.
Qed.

(** X17: a card that [add_card] has just created is known to the list and
    to the index under the id the store assigned: [mark_reviewed] on that
    id succeeds, and [edit_card] and [delete_card] on it answer exactly
    what the store reports ([modified_count > 0], [deleted_count > 0]). *)
Theorem added_card_is_known q a cat new_q new_a new_cat correct self :
  let oid :=
    (insert_one {[ "question" := q; "answer" := a; "category" := cat ]}
       (collection self)).1 in
  let s1 := (add_card q a cat self).2 in
  (mark_reviewed oid correct s1).1 = true ∧
  (edit_card oid new_q new_a new_cat s1).1
  = bool_decide (0 < (update_one oid (edit_update_fields new_q new_a new_cat)
                        (collection s1)).1) ∧
  (delete_card oid s1).1 = bool_decide (0 < (delete_one oid (collection s1)).1).
Proof.
  intros oid s1. pose proof (add_card_listed q a cat self) as [[i r] Hloc].
  fold oid s1 in Hloc.
  split; [|split].
  - destruct (add_card_views q a cat self) as (_ & _ & _ & Hi & _). fold oid s1 in Hi.
    unfold mark_reviewed, _ensure_oid. by rewrite Hi, lookup_insert_eq.
  - rewrite edit_card_unfold. cbn [fst]. unfold LinkedList.edit_card. by rewrite Hloc.
  - rewrite delete_card_unfold. cbn [fst]. unfold LinkedList.delete_card. by rewrite Hloc.
Qed.

End Composition.

(** ** The further theorems at work on concrete states *)

Lemma init_loads_every_document_witness :
  ∃ s, init two_docs_store = Some s ∧
       queue_size s = 2 ∧ practice_queue (mem s) = [0; 1] ∧
       _node_index (mem s) !! 5 = Some 1 ∧
       heap (mem s) !! 1 = Some (mkNode (Some 5) "Q5" "A5" "Uncategorized").
Proof.
  destruct (init two_docs_store) as [s|] eqn:Hinit; [|discriminate Hinit].
  exists s. split; [reflexivity|].
  assert (Hnd : NoDup (find two_docs_store).*1).
  { cbn. apply NoDup_cons. split; [|apply NoDup_singleton].
    by intros ?%list_elem_of_singleton. }
  destruct (init_loads_every_document two_docs_store s Hinit Hnd)
    as (_ & Hsize & Hq & Hl & _ & Hdocs).
  split; [exact Hsize|]. split; [by rewrite Hq, Hl|].
  destruct (Hdocs 1 _ eq_refl) as [Hidx Hnode].
  split; [exact Hidx|]. rewrite Hnode. vm_compute. reflexivity.
Defined.

Lemma edit_card_unknown_id_witness :
  (edit_card 0 "Q2" "A2" None behind_the_store).1 = false ∧
  mem (edit_card 0 "Q2" "A2" None behind_the_store).2 = mem behind_the_store ∧
  (update_one 0 (edit_update_fields "Q2" "A2" None) (collection behind_the_store)).1 = 1.
Proof.
  destruct (edit_card_unknown_id 0 "Q2" "A2" None behind_the_store)
    as (Hret & Hmem & _); [reflexivity|reflexivity|].
  split; [exact Hret|]. split; [exact Hmem|]. reflexivity.
Defined.

Lemma edit_card_writes_truthy_category_witness :
  heap (mem (edit_card 0 "Q2" "A2" (Some "Science") one_card).2) !! 0
  = Some (mkNode (Some 0) "Q2" "A2" "Science") ∧
  0 ∈ get_by_category "Science" (edit_card 0 "Q2" "A2" (Some "Science") one_card).2.
Proof.
  destruct (edit_card_writes_truthy_category 0 "Q2" "A2" "Science" one_card 0
              (mkNode (Some 0) "Q1" "A1" "Math"))
    as (_ & _ & Hnode & Hin); [discriminate|reflexivity|reflexivity|].
  split; [exact Hnode|exact Hin].
Defined.

Lemma delete_card_unknown_id_witness :
  (delete_card 0 behind_the_store).1 = false ∧
  mem (delete_card 0 behind_the_store).2 = mem behind_the_store ∧
  (delete_one 0 (collection behind_the_store)).1 = 1.
Proof.
  destruct (delete_card_unknown_id 0 behind_the_store)
    as (Hret & Hmem & _); [reflexivity|reflexivity|].
  split; [exact Hret|]. split; [exact Hmem|]. reflexivity.
Defined.

Lemma delete_card_purges_single_entries_witness :
  _node_index (mem one_card) !! 0 = Some 0 ∧
  (0 ∉ practice_queue (mem (delete_card 0 one_card).2)) ∧
  (0 ∉ review_history (mem (delete_card 0 one_card).2)).
Proof.
  assert (Hidx : _node_index (mem one_card) !! 0 = Some 0) by reflexivity.
  destruct (delete_card_purges_single_entries 0 0 one_card Hidx)
    as (_ & _ & Hq & Hs).
  split; [exact Hidx|]. split; [apply Hq|apply Hs]; vm_compute; lia.
Defined.

Lemma add_then_delete_restores_views_witness :
  practice_queue (mem (delete_card 1 (add_card "Q2" "A2" "Art" one_card).2).2)
  = practice_queue (mem one_card) ∧
  get_by_category "Art" (delete_card 1 (add_card "Q2" "A2" "Art" one_card).2).2 = [].
Proof.
  assert (Hwf : well_formed (mem one_card)).
  { apply well_formed_add_card. constructor; cbn; try done; apply map_Forall_empty. }
  destruct (add_then_delete_restores_views "Q2" "A2" "Art" one_card Hwf)
    as (_ & Hq & _ & Hb); [reflexivity|].
  split; [exact Hq|]. exact (Hb "Art").
Defined.

Lemma reachable_states_are_consistent_witness :
  reachable (mkMongo [] 0) reviewed_twice ∧
  ∃ n, heap (mem reviewed_twice) !! 0 = Some n ∧ card_id n = Some 0.
Proof.
  assert (Hreach : reachable (mkMongo [] 0) reviewed_twice).
  { unfold reviewed_twice, one_card.
    do 2 apply reach_mark_reviewed. apply reach_add_card. by apply reach_init. }
  split; [exact Hreach|].
  destruct (reachable_states_are_consistent (mkMongo [] 0) reviewed_twice Hreach)
    as [_ Hidx].
  apply (Hidx 0 0). reflexivity.
Defined.

Lemma list_all_after_add_card_witness :
  list_all (λ _, "id") (add_card "Q2" "A2" "Art" one_card).2
  = ["id: Q1 -> A1 [Math]"; "id: Q2 -> A2 [Art]"].
Proof.
  assert (Hwf : well_formed (mem one_card)).
  { apply well_formed_add_card. constructor; cbn; try done; apply map_Forall_empty. }
  rewrite (list_all_after_add_card (λ _, "id") "Q2" "A2" "Art" one_card Hwf).
  reflexivity.
Defined.

Lemma list_all_after_init_witness :
  ∃ s, init two_docs_store = Some s ∧
       list_all (λ _, "id") s = ["id: Q3 -> A3 [Math]"; "id: Q5 -> A5 [Uncategorized]"].
Proof.
  destruct (init two_docs_store) as [s|] eqn:Hinit; [|discriminate Hinit].
  exists s. split; [reflexivity|].
  rewrite (list_all_after_init (λ _, "id") two_docs_store s Hinit). reflexivity.
Defined.

Lemma reachable_cards_are_categorized_witness :
  reachable (mkMongo [] 0) (edit_card 0 "Q2" "A2" (Some "Science") one_card).2 ∧
  0 ∈ get_by_category "Science" (edit_card 0 "Q2" "A2" (Some "Science") one_card).2.
Proof.
  assert (Hreach : reachable (mkMongo [] 0)
                     (edit_card 0 "Q2" "A2" (Some "Science") one_card).2).
  { apply reach_edit_card. unfold one_card. apply reach_add_card. by apply reach_init. }
  split; [exact Hreach|].
  apply (reachable_cards_are_categorized (mkMongo [] 0) _ 0 0
           (mkNode (Some 0) "Q2" "A2" "Science") Hreach); reflexivity.
Defined.
